(** * A deck of cards: the Go package [deck], embedded and verified

    The package builds the 52 standard playing cards into a slice and offers
    transforms on such a slice: [DefaultSort], [Sort], [Shuffle], [Jokers],
    [Filter] and [Deck].  Several of them work on the slice they are given
    ([sort.Slice] permutes in place, [append] writes into spare capacity), so
    the embedding keeps Go's slices as they are: a slice is a header
    (array, offset, length, capacity) over a backing array that lives in a
    heap, and every function is a computation on the program's state that
    may panic.

    Three things the package calls are not its own: the script [sort.Slice]
    follows, the permutation [rand.Perm] draws and the capacity the runtime
    gives a slice that grows.  The program takes them as parameters; the
    theorems that need to know what they do say so in a hypothesis. *)

From Stdlib Require Import Ascii.
From stdpp Require Import base numbers list list_numbers gmap strings pretty sorting.

Module deck.

Open Scope Z_scope.

Set Default Proof Using "Type".

(** * The program *)

(** ** Suits, ranks and cards *)

(** [type Suit uint8] and [type Rank uint8]: eight-bit unsigned integers,
    kept as [Z] with the wrap-around written where a conversion happens. *)
Abbreviation uint8 := Z (only parsing).

Definition uint8_of_int (i : Z) : uint8 := i `mod` 256.

Definition Spade : uint8 := 0.
Definition Diamond : uint8 := 1.
Definition Club : uint8 := 2.
Definition Heart : uint8 := 3.
Definition Joker : uint8 := 4.

Definition suits : list uint8 := [Spade; Diamond; Club; Heart].

Definition Ace : uint8 := 1.
Definition Two : uint8 := 2.
Definition Three : uint8 := 3.
Definition Four : uint8 := 4.
Definition Five : uint8 := 5.
Definition Six : uint8 := 6.
Definition Seven : uint8 := 7.
Definition Eight : uint8 := 8.
Definition Nine : uint8 := 9.
Definition Ten : uint8 := 10.
Definition Jack : uint8 := 11.
Definition Queen : uint8 := 12.
Definition King : uint8 := 13.

Definition minRank : uint8 := Ace.
Definition maxRank : uint8 := King.

Record Card : Type := mkCard { Suit : uint8; Rank : uint8 }.

Global Instance Card_eq_dec : EqDecision Card.
Proof. solve_decision. Defined.

(** The zero value of [Card], which [make] fills a new array with. *)
Definition zeroCard : Card := mkCard 0 0.

Global Instance Card_inhabited : Inhabited Card := populate zeroCard.

(** [absRank]: [int(c.Suit) * int(maxRank) + int(c.Rank)].  Both fields are
    below 256, so the product stays far inside [int] and nothing wraps. *)
Definition absRank (c : Card) : Z := Suit c * maxRank + Rank c.

(** ** Rendering *)

(** Modelled from the spec: the [String] methods of [Suit] and [Rank].  The
    source asks [stringer] to generate them ([go:generate stringer
    -type=Suit,Rank]) and the generated file is not among the sources.  A
    declared constant renders as its identifier; any other value renders the
    way that tool prints it, as the type name with the number in brackets. *)
Definition Suit_String (i : uint8) : string :=
  match i with
  | 0 => "Spade"
  | 1 => "Diamond"
  | 2 => "Club"
  | 3 => "Heart"
  | 4 => "Joker"
  | _ => "Suit(" +:+ pretty i +:+ ")"
  end.

Definition Rank_String (i : uint8) : string :=
  match i with
  | 1 => "Ace"
  | 2 => "Two"
  | 3 => "Three"
  | 4 => "Four"
  | 5 => "Five"
  | 6 => "Six"
  | 7 => "Seven"
  | 8 => "Eight"
  | 9 => "Nine"
  | 10 => "Ten"
  | 11 => "Jack"
  | 12 => "Queen"
  | 13 => "King"
  | _ => "Rank(" +:+ pretty i +:+ ")"
  end.

(** [fmt.Sprintf] for formats whose only verb is [%s] applied to strings:
    a verb takes the next argument, any other character is copied. *)
Fixpoint Sprintf (format : string) (args : list string) : string :=
  match format with
  | EmptyString => EmptyString
  | String "%"%char (String "s"%char rest) =>
      match args with
      | a :: args' => a +:+ Sprintf rest args'
      | [] => "%!s(MISSING)" +:+ Sprintf rest []
      end
  | String ch rest => String ch (Sprintf rest args)
  end.

(** [func (c Card) String() string] *)
Definition Card_String (c : Card) : string :=
  if decide (Suit c = Joker) then Suit_String (Suit c)
  else Sprintf "%s of %ss" [Rank_String (Rank c); Suit_String (Suit c)].

(** ** Slices over a heap of backing arrays *)

(** A slice header.  [arr] names the backing array, [off] is where the
    slice starts in it, [len] and [cap] are Go's [len] and [cap]. *)
Record slice : Type := mkSlice { arr : nat; off : nat; len : nat; cap : nat }.

Global Instance slice_eq_dec : EqDecision slice.
Proof. solve_decision. Defined.

(** The nil slice, the value of [var cards []Card]. *)
Definition nil_slice : slice := mkSlice 0 0 0 0.

Abbreviation Heap := (gmap nat (list Card)).

Definition backing (h : Heap) (s : slice) : list Card :=
  default [] (h !! arr s).

(** The cards a slice holds, first to last. *)
Definition contents (h : Heap) (s : slice) : list Card :=
  take (len s) (drop (off s) (backing h s)).

(** A slice the program can hold: its capacity lies inside its array. *)
Definition valid (h : Heap) (s : slice) : Prop :=
  (len s ≤ cap s)%nat ∧ (off s + cap s ≤ length (backing h s))%nat.

Global Instance valid_dec h s : Decision (valid h s).
Proof. unfold valid. apply _. Defined.

(** ** What the package calls *)

(** What [sort.Slice] does to the slice is a script over the two operations
    it is given, [less] and [swap]: each step either swaps two positions or
    asks [less] about two positions and goes on according to the answer.
    Which script the library runs for a slice of a given length is its own
    business. *)
Inductive sortProg : Type :=
  | Done
  | DoSwap (i j : nat) (k : sortProg)
  | DoLess (i j : nat) (kt kf : sortProg).

(** ** The package's functions *)

Section Program.

(** The state of the generator behind [shuffleRand], and its [Perm] method;
    both belong to [math/rand]. *)
Variable Rand : Type.
Variable Perm : Rand → nat → list nat * Rand.

(** The script [sort.Slice] follows on a slice of the given length. *)
Variable sortSteps : nat → sortProg.

(** The capacity the runtime adds beyond what is needed when [append] has to
    move a slice to a new array, from the old capacity and the needed one. *)
Variable growslice : nat → nat → nat.

Record World : Type := mkWorld { heap : Heap; shuffleRand : Rand }.

Definition set_heap (h : Heap) (w : World) : World :=
  mkWorld h (shuffleRand w).

(** A computation reads and writes the world and may panic ([None]). *)
Definition M (A : Type) : Type := World → option (A * World).

Global Instance M_ret : MRet M := λ A a w, Some (a, w).

Global Instance M_bind : MBind M := λ A B k m w,
  match m w with
  | Some (a, w') => k a w'
  | None => None
  end.

(** A loop that carries one variable through its iterations. *)
Fixpoint foldM {A B} (body : B → A → M B) (b : B) (l : list A) : M B :=
  match l with
  | [] => mret b
  | x :: l' => b' ← body b x; foldM body b' l'
  end.

(** [for i, x := range l] *)
Fixpoint rangeM {A} (body : nat → A → M unit) (i : nat) (l : list A) : M unit :=
  match l with
  | [] => mret tt
  | x :: l' => body i x ;; rangeM body (S i) l'
  end.

(** [s[i]] as a value: out of range panics. *)
Definition index (s : slice) (i : nat) : M Card := λ w,
  if decide (i < len s)%nat then
    match backing (heap w) s !! (off s + i)%nat with
    | Some c => Some (c, w)
    | None => None
    end
  else None.

(** [s[i] = c] *)
Definition assign (s : slice) (i : nat) (c : Card) : M unit := λ w,
  if decide (i < len s ∧ off s + i < length (backing (heap w) s))%nat then
    Some (tt, set_heap (alter (<[(off s + i)%nat := c]>) (arr s) (heap w)) w)
  else None.

(** A new array at an address that is not in use. *)
Definition alloc (a : list Card) : M nat := λ w,
  let l := fresh (dom (heap w)) in
  Some (l, set_heap (<[l := a]> (heap w)) w).

(** [make([]Card, n)] *)
Definition make (n : nat) : M slice :=
  l ← alloc (replicate n zeroCard); mret (mkSlice l 0 n n).

(** [append(s, elems...)]: when the capacity suffices the elements are
    written into the array of [s] behind its last card; otherwise the cards
    of [s] and the elements go to a new array. *)
Definition append (s : slice) (elems : list Card) : M slice := λ w,
  let n := (len s + length elems)%nat in
  if decide (n ≤ cap s)%nat then
    Some (mkSlice (arr s) (off s) n (cap s),
          set_heap (alter (list_inserts (off s + len s) elems) (arr s) (heap w)) w)
  else
    let c := (n + growslice (cap s) n)%nat in
    (l ← alloc (contents (heap w) s ++ elems ++ replicate (c - n) zeroCard);
     mret (mkSlice l 0 n c)) w.

(** [func New(options ...func([]Card) []Card) []Card].  The inner loop
    [for rank := minRank; rank <= maxRank; rank++] runs over the ranks from
    [minRank] to [maxRank], both included; [maxRank] is 13, far from where a
    [uint8] counter would wrap. *)
Definition New (options : list (slice → M slice)) : M slice :=
  cards ← foldM (λ cards suit,
             foldM (λ cards rank, append cards [mkCard suit rank])
                   cards (seqZ minRank (maxRank - minRank + 1)))
           nil_slice suits;
  foldM (λ cards option, option cards) cards options.

(** [reflect.Swapper(x)] *)
Definition Swapper (x : slice) (i j : nat) : M unit :=
  a ← index x i; b ← index x j; assign x i b ;; assign x j a.

Fixpoint runSort (less : nat → nat → M bool) (swap : nat → nat → M unit)
    (p : sortProg) : M unit :=
  match p with
  | Done => mret tt
  | DoSwap i j k => swap i j ;; runSort less swap k
  | DoLess i j kt kf =>
      b ← less i j; if b : bool then runSort less swap kt else runSort less swap kf
  end.

(** [sort.Slice(x, less)] *)
Definition sort_Slice (x : slice) (less : nat → nat → M bool) : M unit :=
  runSort less (Swapper x) (sortSteps (len x)).

(** [func Less(cards []Card) func(i, j int) bool] *)
Definition Less (cards : slice) (i j : nat) : M bool :=
  a ← index cards i; b ← index cards j; mret (bool_decide (absRank a < absRank b)).

(** [func DefaultSort(cards []Card) []Card] *)
Definition DefaultSort (cards : slice) : M slice :=
  sort_Slice cards (Less cards) ;; mret cards.

(** [func Sort(less func(cards []Card) func(i, j int) bool) func([]Card) []Card] *)
Definition Sort (less : slice → nat → nat → M bool) (cards : slice) : M slice :=
  sort_Slice cards (less cards) ;; mret cards.

(** [shuffleRand.Perm(n)] *)
Definition rand_Perm (n : nat) : M (list nat) := λ w,
  let '(p, r) := Perm (shuffleRand w) n in Some (p, mkWorld (heap w) r).

(** [func Shuffle(cards []Card) []Card] *)
Definition Shuffle (cards : slice) : M slice :=
  ret ← make (len cards);
  perm ← rand_Perm (len cards);
  rangeM (λ i j, c ← index cards j; assign ret i c) 0%nat perm ;;
  mret ret.

(** [func Jokers(n int) func([]Card) []Card] *)
Definition Jokers (n : Z) (cards : slice) : M slice :=
  foldM (λ cards i, append cards [mkCard Joker (uint8_of_int i)])
        cards (seqZ 0 n).

(** [func Filter(f func(card Card) bool) func([]Card) []Card] *)
Definition Filter (f : Card → bool) (cards : slice) : M slice :=
  foldM (λ ret i, c ← index cards i;
                  if negb (f c) then append ret [c] else mret ret)
        nil_slice (seq 0 (len cards)).

(** [func Deck(n int) func([]Card) []Card] *)
Definition Deck (n : Z) (cards : slice) : M slice :=
  foldM (λ ret _, λ w, append ret (contents (heap w) cards) w)
        nil_slice (seqZ 0 n).

End Program.

Arguments mkWorld {Rand} heap shuffleRand.
Arguments heap {Rand} w.
Arguments shuffleRand {Rand} w.
Arguments set_heap {Rand} h w.
Arguments foldM {Rand A B} body b l.
Arguments rangeM {Rand A} body i l.
Arguments index {Rand} s i.
Arguments assign {Rand} s i c.
Arguments alloc {Rand} a.
Arguments make {Rand} n.
Arguments append {Rand} growslice s elems.
Arguments New {Rand} growslice options.
Arguments Swapper {Rand} x i j.
Arguments runSort {Rand} less swap p.
Arguments sort_Slice {Rand} sortSteps x less.
Arguments Less {Rand} cards i j.
Arguments DefaultSort {Rand} sortSteps cards.
Arguments Sort {Rand} sortSteps less cards.
Arguments rand_Perm {Rand} Perm n.
Arguments Shuffle {Rand} Perm cards.
Arguments Jokers {Rand} growslice n cards.
Arguments Filter {Rand} growslice f cards.
Arguments Deck {Rand} growslice n cards.

(** * The vocabulary of the specification *)

(** ** Decks *)

Definition joker (i : Z) : Card := mkCard Joker (uint8_of_int i).

(** The cards [New] puts together before it applies its options. *)
Definition suitCards (suit : uint8) : list Card :=
  mkCard suit <$> seqZ minRank (maxRank - minRank + 1).

Definition standardDeck : list Card := concat (suitCards <$> suits).

(** Ascending absolute rank, the order [DefaultSort] aims at. *)
Definition byAbsRank (a b : Card) : Prop := absRank a ≤ absRank b.

(** The comparison [Less] makes between two cards. *)
Definition lessCard (a b : Card) : bool := bool_decide (absRank a < absRank b).

(** ** What [sort.Slice] and [rand.Perm] are known to do *)

(** The script [sort.Slice] runs, followed on a plain list: [lt] compares
    the elements that stand at the two positions asked about. *)
Definition swap_list {A} (i j : nat) (l : list A) : option (list A) :=
  a ← l !! i; b ← l !! j; Some (<[j := a]> (<[i := b]> l)).

Fixpoint execSort {A} (lt : A → A → bool) (p : sortProg) (l : list A)
    : option (list A) :=
  match p with
  | Done => Some l
  | DoSwap i j k => l' ← swap_list i j l; execSort lt k l'
  | DoLess i j kt kf =>
      a ← l !! i; b ← l !! j;
      if lt a b then execSort lt kt l else execSort lt kf l
  end.

(** The comparisons [sort.Slice] is meant for. *)
Definition strict_weak {A} (lt : A → A → bool) : Prop :=
  (∀ a, lt a a = false) ∧
  (∀ a b c, lt a b = true → lt b c = true → lt a c = true) ∧
  (∀ a b c, lt a b = false → lt b c = false → lt a c = false).

(** [a] may stand before [b]: [b] is not less than [a]. *)
Definition inOrder {A} (lt : A → A → bool) (a b : A) : Prop := lt b a = false.

(** [sort.Slice] sorts: with such a comparison the script for a slice's
    length runs to its end and leaves no element before one it is less
    than. *)
Definition sorts (steps : nat → sortProg) : Prop :=
  ∀ lt : Card → Card → bool, strict_weak lt →
  ∀ l, ∃ l', execSort lt (steps (length l)) l = Some l' ∧
             StronglySorted (inOrder lt) l'.

(** [rand.Perm(n)] returns a permutation of the integers [0 .. n-1]. *)
Definition permutes {Rand} (Perm : Rand → nat → list nat * Rand) : Prop :=
  ∀ r n, (Perm r n).1 ≡ₚ seq 0 n.

(** [insertionSortLessFunc(data, 0, n)] of package [sort], which is all
    that [sort.Slice] runs on a short slice:
    [for i := 1; i < n; i++ { for j := i; j > 0 && less(j, j-1); j-- { swap(j, j-1) } }]. *)
Fixpoint insertDown (j : nat) (k : sortProg) : sortProg :=
  match j with
  | O => k
  | S j' => DoLess (S j') j' (DoSwap (S j') j' (insertDown j' k)) k
  end.

Fixpoint insertionFrom (i count : nat) : sortProg :=
  match count with
  | O => Done
  | S count' => insertDown i (insertionFrom (S i) count')
  end.

Definition insertionSort (n : nat) : sortProg := insertionFrom 1 (n - 1).

(** ** What a computation achieves *)

(** [yields m w Q]: run from [w], the computation [m] returns (it does not
    panic) and its result and final world satisfy [Q]. *)
Definition yields {Rand A} (m : M Rand A) (w : World Rand)
    (Q : A → World Rand → Prop) : Prop :=
  ∃ a w', m w = Some (a, w') ∧ Q a w'.

(** What [append] guarantees: the result holds the old cards followed by the
    new ones; any slice whose cards lie in another array, or in the same
    array before the end of [s], keeps them; and a slice that owned no array
    of a heap [h0] leaves [h0] as it is. *)
Record appended {Rand} (w : World Rand) (s : slice) (es : list Card)
    (s' : slice) (w' : World Rand) : Prop := {
  appended_valid : valid (heap w') s';
  appended_len : len s' = (len s + length es)%nat;
  appended_contents : contents (heap w') s' = contents (heap w) s ++ es;
  appended_rand : shuffleRand w' = shuffleRand w;
  appended_frame : ∀ t,
    valid (heap w) t →
    arr t ≠ arr s ∨ (off t + len t ≤ off s + len s)%nat →
    valid (heap w') t ∧ contents (heap w') t = contents (heap w) t ∧
    (arr t ≠ arr s' ∨ (off t + len t ≤ off s' + len s')%nat);
  appended_fresh : ∀ h0,
    h0 ⊆ heap w → cap s = 0%nat ∨ arr s ∉ dom h0 →
    h0 ⊆ heap w' ∧ (cap s' = 0%nat ∨ arr s' ∉ dom h0)
}.

(** What [Shuffle] returns: card [i] of the result is card [perm[i]] of the
    input, in a new array; the arrays there were are untouched and the
    generator has moved on. *)
Record shuffled {Rand} (Perm : Rand → nat → list nat * Rand)
    (w : World Rand) (cards ret : slice) (w' : World Rand) : Prop := {
  shuffled_valid : valid (heap w') ret;
  shuffled_len : len ret = len cards;
  shuffled_contents :
    contents (heap w') ret =
      (λ j, contents (heap w) cards !!! j) <$> (Perm (shuffleRand w) (len cards)).1;
  shuffled_heap : heap w ⊆ heap w';
  shuffled_rand : shuffleRand w' = (Perm (shuffleRand w) (len cards)).2
}.

(** A slice rearranged where it lies: it holds [l'] now, the generator and
    every other array are as before. *)
Record in_place {Rand} (w : World Rand) (x : slice) (l' : list Card)
    (w' : World Rand) : Prop := {
  in_place_valid : valid (heap w') x;
  in_place_contents : contents (heap w') x = l';
  in_place_rand : shuffleRand w' = shuffleRand w;
  in_place_frame : ∀ l, l ≠ arr x → heap w' !! l = heap w !! l
}.

(** A comparison of positions that compares the cards standing there, the
    way [Less] does with [absRank]: what a caller hands to [Sort]. *)
Definition lessBy {Rand} (lt : Card → Card → bool) (cards : slice) (i j : nat)
    : M Rand bool :=
  a ← index cards i; b ← index cards j; mret (lt a b).

(** Nothing but the positions of the slice [x] differs between two worlds:
    the rest of the array of [x], the other arrays and the generator are the
    same. *)
Record only_window {Rand} (w : World Rand) (x : slice) (w' : World Rand) : Prop := {
  only_window_length : length (backing (heap w') x) = length (backing (heap w) x);
  only_window_outside : ∀ k,
    (k < off x ∨ off x + len x ≤ k)%nat →
    backing (heap w') x !! k = backing (heap w) x !! k;
  only_window_others : ∀ l, l ≠ arr x → heap w' !! l = heap w !! l;
  only_window_rand : shuffleRand w' = shuffleRand w
}.

(** ** Concrete inputs *)

(** A generator that hands out the integers in descending order, and a
    runtime that doubles the capacity of a slice that has to grow. *)
Definition descPerm (r : unit) (n : nat) : list nat * unit := (reverse (seq 0 n), r).

Definition doubling (oldcap needed : nat) : nat := (2 * oldcap - needed)%nat.

(** The world in which the only array is [a], and the slice of all of it. *)
Definition worldOf (a : list Card) : World unit := mkWorld {[ 0%nat := a ]} tt.

Definition wholeOf (a : list Card) : slice := mkSlice 0 0 (length a) (length a).

Definition emptyWorld : World unit := mkWorld ∅ tt.

Definition twoCards : list Card := [mkCard Spade Two; mkCard Spade Ace].

Definition fiveCards : list Card :=
  [mkCard Heart Queen; mkCard Joker 0; mkCard Spade Ace; mkCard Joker 1; mkCard Club Ten].

Definition isJoker (c : Card) : bool := bool_decide (Suit c = Joker).

(** An array of three cards of which a slice uses the first only: it has
    room for two more. *)
Definition roomyWorld : World unit :=
  mkWorld {[ 0%nat := [mkCard Spade Ace; zeroCard; zeroCard] ]} tt.

Definition roomySlice : slice := mkSlice 0 0 1 3.

(** The slice [fiveCards[1:4]] of the array of [worldOf fiveCards]. *)
Definition middleOf : slice := mkSlice 0 1 3 4.

(** Four cards that ascend strictly by absolute rank. *)
Definition sortedCards : list Card :=
  [mkCard Spade Ace; mkCard Club Ten; mkCard Heart Queen; mkCard Joker 1].

Definition isAce (c : Card) : bool := bool_decide (Rank c = Ace).


Definition contrary (a b : Card) : bool := true.

(** A comparison written out by hand that answers as [Less] does. *)
Definition lessByAbsRank (cards : slice) (i j : nat) : M unit bool :=
  a ← index cards i; b ← index cards j;
  mret (bool_decide (Suit a * 13 + Rank a < Suit b * 13 + Rank b)).

(** * Proofs *)

(** ** Lists *)

(** Where a loop over [0 .. n-1] stands after some iterations. *)
Lemma seqZ_split n done x todo :
  seqZ 0 n = done ++ x :: todo → x = Z.of_nat (length done).
Proof.
  intros Hl.
  assert (seqZ 0 n !! length done = Some x) as Hx
    by (rewrite Hl; apply list_lookup_middle; done).
  apply lookup_seqZ in Hx. lia.
Qed.

Lemma seq_split n done x todo :
  seq 0 n = done ++ x :: todo → x = length done.
Proof.
  intros Hl.
  assert (seq 0 n !! length done = Some x) as Hx
    by (rewrite Hl; apply list_lookup_middle; done).
  apply lookup_seq in Hx. lia.
Qed.

Lemma StronglySorted_mono {A} (R1 R2 : relation A) l :
  (∀ a b, R1 a b → R2 a b) → StronglySorted R1 l → StronglySorted R2 l.
Proof.
  intros HR. induction 1 as [|a l Hl IH Ha]; constructor; [done|].
  eapply Forall_impl; [done|]. auto.
Qed.

Lemma filter_all_removed (f : Card → bool) (l : list Card) :
  (∀ c, c ∈ l → f c = true) → filter (λ c, f c = false) l = [].
Proof.
  induction l as [|c l IH]; intros Hall; [done|].
  rewrite filter_cons_False by (rewrite Hall; [done|by left]).
  apply IH. intros c' Hc'. apply Hall. by right.
Qed.

Lemma StronglySorted_lookup {A} (R : relation A) (l : list A) : ∀ i k a b,
  StronglySorted R l → (i < k)%nat → l !! i = Some a → l !! k = Some b → R a b.
Proof.
  induction l as [|x l IH]; intros i k a b Hs Hik Ha Hb; [done|].
  apply StronglySorted_inv in Hs as [Hs Hx].
  destruct k as [|k]; [lia|]. simpl in Hb.
  destruct i as [|i]; simpl in Ha.
  - injection Ha as ->. rewrite Forall_forall in Hx.
    apply Hx. by eapply list_elem_of_lookup_2.
  - apply (IH i k); [done|lia|done..].
Qed.

Lemma filter_keep_all {A} (P : A → Prop) `{!∀ x, Decision (P x)} (l : list A) :
  (∀ x, x ∈ l → P x) → filter P l = l.
Proof.
  induction l as [|x l IH]; intros Hall; [done|].
  rewrite filter_cons_True by (apply Hall; by left).
  f_equal. apply IH. intros y Hy. apply Hall. by right.
Qed.

Lemma filter_drop_all {A} (P : A → Prop) `{!∀ x, Decision (P x)} (l : list A) :
  (∀ x, x ∈ l → ¬ P x) → filter P l = [].
Proof.
  induction l as [|x l IH]; intros Hall; [done|].
  rewrite filter_cons_False by (apply Hall; by left).
  apply IH. intros y Hy. apply Hall. by right.
Qed.

Lemma concat_replicate_mul {A} (l : list A) (a b : nat) :
  concat (replicate b (concat (replicate a l))) = concat (replicate (a * b) l).
Proof.
  induction b as [|b IH]; simpl.
  - by rewrite Nat.mul_0_r.
  - rewrite IH, Nat.mul_succ_r, (Nat.add_comm (a * b) a), replicate_add, concat_app.
    done.
Qed.

(** Writing one element and then a run behind it is writing the run with
    that element in front. *)
Lemma list_inserts_cons_l {A} (p : nat) (y : A) (k l : list A) :
  list_inserts (S p) k (<[p := y]> l) = list_inserts p (y :: k) l.
Proof. simpl. symmetry. apply list_insert_inserts_lt. lia. Qed.

(** In a list that ascends strictly by a key, the key tells the place. *)
Lemma strictly_sorted_key_inj {A} (key : A → Z) (l : list A) a b :
  StronglySorted (λ x y, key x < key y) l →
  a ∈ l → b ∈ l → key a = key b → a = b.
Proof.
  intros Hs [i Ha]%list_elem_of_lookup [k Hb]%list_elem_of_lookup Heq.
  destruct (Nat.lt_trichotomy i k) as [Hlt|[->|Hlt]].
  - pose proof (StronglySorted_lookup _ _ _ _ _ _ Hs Hlt Ha Hb) as H.
    simpl in H. lia.
  - congruence.
  - pose proof (StronglySorted_lookup _ _ _ _ _ _ Hs Hlt Hb Ha) as H.
    simpl in H. lia.
Qed.

(** ** Decks *)

Lemma elem_of_standardDeck c :
  c ∈ standardDeck ↔ Suit c ∈ suits ∧ Ace ≤ Rank c ≤ King.
Proof.
  unfold standardDeck. rewrite list_elem_of_In, in_concat. split.
  - intros (row & Hrow & Hc).
    apply list_elem_of_In, list_elem_of_fmap in Hrow as (suit & -> & Hsuit).
    apply list_elem_of_In, list_elem_of_fmap in Hc as (rank & -> & Hrank).
    apply elem_of_seqZ in Hrank. simpl.
    unfold minRank, maxRank, Ace, King in *. split; [done|lia].
  - intros [Hsuit Hrank]. exists (suitCards (Suit c)). split.
    + by apply list_elem_of_In, list_elem_of_fmap_2.
    + apply list_elem_of_In. destruct c as [suit rank]. simpl in *.
      apply list_elem_of_fmap_2, elem_of_seqZ.
      unfold minRank, maxRank, Ace, King in *. lia.
Qed.

Lemma absRank_standardDeck_inj a b :
  a ∈ standardDeck → b ∈ standardDeck → absRank a = absRank b → a = b.
Proof.
  rewrite !elem_of_standardDeck.
  destruct a as [sa ra], b as [sb rb]. unfold absRank, suits. simpl.
  unfold maxRank, Spade, Diamond, Club, Heart, Ace, King.
  rewrite !elem_of_cons, !elem_of_nil.
  intros [Hsa Hra] [Hsb Hrb] Heq. f_equal; lia.
Qed.

Lemma standardDeck_sorted : StronglySorted byAbsRank standardDeck.
Proof.
  apply Sorted_StronglySorted.
  { intros a b c. unfold byAbsRank. lia. }
  unfold byAbsRank. vm_compute.
  repeat (constructor; [|constructor; intros ?; discriminate]).
  repeat constructor.
Qed.

(** A sorted rearrangement of the standard deck is the standard deck. *)
Lemma sorted_standardDeck l :
  l ≡ₚ standardDeck → StronglySorted byAbsRank l → l = standardDeck.
Proof.
  intros Hp Hs.
  apply (StronglySorted_unique_strong byAbsRank); [|done|apply standardDeck_sorted|done].
  intros a b Ha Hb Hab Hba. rewrite Hp in Ha.
  apply absRank_standardDeck_inj; [done..|]. unfold byAbsRank in *. lia.
Qed.

Lemma strict_weak_lessCard : strict_weak lessCard.
Proof.
  unfold lessCard. split; [|split].
  - intros a. apply bool_decide_eq_false. lia.
  - intros a b c. rewrite !bool_decide_eq_true. lia.
  - intros a b c. rewrite !bool_decide_eq_false. lia.
Qed.

(** ** Sorting scripts *)

Lemma swap_list_Permutation {A} i j (l l' : list A) :
  swap_list i j l = Some l' → l' ≡ₚ l.
Proof.
  unfold swap_list. intros H.
  destruct (l !! i) as [a|] eqn:Ha; [|done].
  destruct (l !! j) as [b|] eqn:Hb; [|done].
  simpl in H. injection H as <-. by apply Permutation_insert_swap.
Qed.

Lemma execSort_Permutation {A} (lt : A → A → bool) p l l' :
  execSort lt p l = Some l' → l' ≡ₚ l.
Proof.
  revert l. induction p as [|i j k IH|i j kt IHt kf IHf]; intros l H; simpl in H.
  - by injection H as <-.
  - destruct (swap_list i j l) as [l1|] eqn:Hs; [|done]. simpl in H.
    rewrite (IH _ H). by eapply swap_list_Permutation.
  - destruct (l !! i) as [a|]; [|done]. destruct (l !! j) as [b|]; [|done].
    simpl in H. destruct (lt a b); auto.
Qed.

(** Relabelling the elements does not change what the script does when the
    comparison gives the same answers on the labels. *)
Lemma execSort_fmap {A B} (f : A → B) (ltA : A → A → bool) (ltB : B → B → bool) p :
  (∀ a b, ltB (f a) (f b) = ltA a b) →
  ∀ l : list A,
    execSort ltB p (fmap (M := list) f l) =
      fmap (M := option) (fmap (M := list) f) (execSort ltA p l).
Proof.
  intros Hlt. induction p as [|i j k IH|i j kt IHt kf IHf]; intros l; simpl.
  - done.
  - unfold swap_list. rewrite !list_lookup_fmap.
    destruct (l !! i) as [a|]; [|done]. destruct (l !! j) as [b|]; [|done].
    simpl. by rewrite <-!list_fmap_insert, IH.
  - rewrite !list_lookup_fmap.
    destruct (l !! i) as [a|]; [|done]. destruct (l !! j) as [b|]; [|done].
    simpl. rewrite Hlt. by destruct (ltA a b).
Qed.

(** Insertion sort sorts. *)
Section InsertionSort.

Context {A : Type} (lt : A → A → bool).

Hypothesis lt_strict_weak : strict_weak lt.

Local Abbreviation le := (inOrder lt).

Lemma lookup_adjacent (pre : list A) y x post :
  (pre ++ y :: x :: post) !! S (length pre) = Some x ∧
  (pre ++ y :: x :: post) !! length pre = Some y.
Proof.
  split; [|by apply list_lookup_middle].
  rewrite lookup_app_r by lia.
  by replace (S (length pre) - length pre)%nat with 1%nat by lia.
Qed.

Lemma swap_adjacent (pre : list A) y x post :
  swap_list (S (length pre)) (length pre) (pre ++ y :: x :: post) =
    Some (pre ++ x :: y :: post).
Proof.
  unfold swap_list.
  destruct (lookup_adjacent pre y x post) as [-> ->]. simpl. f_equal.
  rewrite (insert_app_r_alt pre) by lia.
  replace (S (length pre) - length pre)%nat with 1%nat by lia. simpl.
  rewrite (insert_app_r_alt pre) by lia.
  by rewrite Nat.sub_diag.
Qed.

(** The inner loop lets the element behind a sorted front sink to its
    place. *)
Lemma insertDown_exec k (pre : list A) : ∀ x post,
  StronglySorted le pre →
  ∃ pre', execSort lt (insertDown (length pre) k) (pre ++ x :: post) =
            execSort lt k (pre' ++ post) ∧
          pre' ≡ₚ pre ++ [x] ∧ StronglySorted le pre'.
Proof using lt_strict_weak.
  destruct lt_strict_weak as (Hirr & Htrans & Hneg).
  induction pre as [|y pre IH] using rev_ind; intros x post Hs.
  - exists [x]. simpl. split; [done|]. split; [done|].
    repeat constructor.
  - rewrite length_app. simpl. rewrite Nat.add_1_r. simpl.
    rewrite <-app_assoc. simpl.
    destruct (lookup_adjacent pre y x post) as [-> ->]. simpl.
    pose proof Hs as (Hpy & Hpre & _)%StronglySorted_app.
    destruct (lt x y) eqn:Hxy.
    + rewrite swap_adjacent. simpl.
      destruct (IH x (y :: post) Hpre) as (pre' & Hex & Hperm & Hs').
      exists (pre' ++ [y]). rewrite <-app_assoc. simpl.
      split; [done|]. split.
      * rewrite Hperm, <-!app_assoc. apply Permutation_app_head, Permutation_swap.
      * apply StronglySorted_app_2; [|done|repeat constructor].
        intros a b Ha Hb. apply list_elem_of_singleton in Hb as ->.
        rewrite Hperm in Ha. apply elem_of_app in Ha as [Ha|Ha].
        -- apply Hpy; [done|]. by apply list_elem_of_singleton.
        -- apply list_elem_of_singleton in Ha as ->. unfold inOrder.
           destruct (lt y x) eqn:Hyx; [|done].
           pose proof (Hirr x) as Hx. by rewrite (Htrans _ _ _ Hxy Hyx) in Hx.
    + exists (pre ++ [y; x]). rewrite <-!app_assoc. simpl.
      split; [done|]. split; [done|].
      replace (pre ++ [y; x]) with ((pre ++ [y]) ++ [x]) by (by rewrite <-app_assoc).
      apply StronglySorted_app_2; [|done|repeat constructor].
      intros a b Ha Hb. apply list_elem_of_singleton in Hb as ->.
      apply elem_of_app in Ha as [Ha|Ha].
      * unfold inOrder. eapply Hneg; [exact Hxy|].
        apply Hpy; [done|]. by apply list_elem_of_singleton.
      * by apply list_elem_of_singleton in Ha as ->.
Qed.

Lemma insertionFrom_exec (post : list A) : ∀ pre,
  StronglySorted le pre →
  ∃ l', execSort lt (insertionFrom (length pre) (length post)) (pre ++ post) = Some l' ∧
        StronglySorted le l'.
Proof using lt_strict_weak.
  induction post as [|x post IH]; intros pre Hs; simpl.
  - exists pre. by rewrite app_nil_r.
  - destruct (insertDown_exec (insertionFrom (S (length pre)) (length post))
                pre x post Hs) as (pre' & Hex & Hperm & Hs').
    rewrite Hex.
    replace (S (length pre)) with (length pre').
    { by apply IH. }
    apply Permutation_length in Hperm. rewrite length_app in Hperm. simpl in Hperm. lia.
Qed.

Lemma insertionSort_exec (l : list A) :
  ∃ l', execSort lt (insertionSort (length l)) l = Some l' ∧ StronglySorted le l'.
Proof using lt_strict_weak.
  destruct l as [|x post].
  - exists []. split; [done|constructor].
  - unfold insertionSort. simpl. rewrite Nat.sub_0_r.
    apply (insertionFrom_exec post [x]). repeat constructor.
Qed.

End InsertionSort.

Lemma insertionSort_sorts : sorts insertionSort.
Proof. intros lt Hlt l. by apply insertionSort_exec. Qed.

(** ** Slices and the heap *)

Lemma lookup_contents h s i :
  contents h s !! i =
    if decide (i < len s)%nat then backing h s !! (off s + i)%nat else None.
Proof.
  unfold contents. case_decide.
  - by rewrite lookup_take_lt, lookup_drop.
  - apply lookup_take_ge. lia.
Qed.

Lemma length_contents h s : valid h s → length (contents h s) = len s.
Proof.
  intros [? ?]. unfold contents. rewrite length_take, length_drop. lia.
Qed.

(** A slice over an address with no array is empty. *)
Lemma valid_unallocated h s :
  valid h s → h !! arr s = None → len s = 0%nat ∧ cap s = 0%nat ∧ off s = 0%nat.
Proof.
  intros [? Hc] Hn. unfold backing in Hc. rewrite Hn in Hc. simpl in Hc. lia.
Qed.

Lemma contents_empty h s : len s = 0%nat → contents h s = [].
Proof. intros Hl. unfold contents. by rewrite Hl. Qed.

Lemma valid_nil_slice h : valid h nil_slice.
Proof. split; simpl; lia. Qed.

(** Arrays are never freed or resized, so a slice that is valid stays valid
    and keeps its cards when the heap only gains arrays. *)
Lemma valid_weaken h h' s : h ⊆ h' → valid h s → valid h' s.
Proof.
  intros Hsub Hv. destruct (h !! arr s) as [a|] eqn:Ha.
  - unfold valid, backing in *.
    by rewrite (lookup_weaken _ _ _ _ Ha Hsub), Ha in *.
  - destruct (valid_unallocated _ _ Hv Ha) as (? & ? & ?).
    unfold valid. lia.
Qed.

Lemma contents_weaken h h' s : h ⊆ h' → valid h s → contents h' s = contents h s.
Proof.
  intros Hsub Hv. destruct (h !! arr s) as [a|] eqn:Ha.
  - unfold contents, backing.
    by rewrite (lookup_weaken _ _ _ _ Ha Hsub), Ha.
  - destruct (valid_unallocated _ _ Hv Ha) as (? & ? & ?).
    by rewrite !contents_empty.
Qed.

Lemma backing_alter (f : list Card → list Card) h l s :
  f [] = [] →
  backing (alter f l h) s = if decide (arr s = l) then f (backing h s) else backing h s.
Proof.
  intros Hf. unfold backing. case_decide as Hl.
  - subst l. rewrite lookup_alter_eq. by destruct (h !! arr s).
  - by rewrite lookup_alter_ne.
Qed.

Lemma backing_alter_inserts h l p es s :
  backing (alter (list_inserts p es) l h) s =
    if decide (arr s = l) then list_inserts p es (backing h s) else backing h s.
Proof. apply backing_alter, list_inserts_nil. Qed.

Lemma backing_insert h l a s :
  backing (<[l := a]> h) s = if decide (arr s = l) then a else backing h s.
Proof.
  unfold backing. case_decide as Hl.
  - subst l. by rewrite lookup_insert_eq.
  - by rewrite lookup_insert_ne.
Qed.

Lemma backing_mkSlice h s o n c : backing h (mkSlice (arr s) o n c) = backing h s.
Proof. done. Qed.

Lemma fresh_unallocated (h : Heap) : h !! fresh (dom h) = None.
Proof. apply not_elem_of_dom, is_fresh. Qed.

(** ** The package's functions *)

Section Proofs.

Context {Rand : Type}.
Context (Perm : Rand → nat → list nat * Rand).
Context (sortSteps : nat → sortProg).
Context (growslice : nat → nat → nat).

(** What is known of [rand.Perm] and of [sort.Slice]. *)
Hypothesis Perm_permutation : permutes Perm.
Hypothesis sortSteps_sorts : sorts sortSteps.

Implicit Types w : World Rand.
Implicit Types cards ret : slice.

(** *** Computations *)

Lemma yields_ret {A} (a : A) w (Q : A → World Rand → Prop) :
  Q a w → yields (mret a) w Q.
Proof. intros HQ. exists a, w. done. Qed.

Lemma yields_bind {A B} (m : M Rand A) (k : A → M Rand B) w (Q : B → World Rand → Prop) :
  yields m w (λ a w', yields (k a) w' Q) → yields (m ≫= k) w Q.
Proof.
  intros (a & w' & Hm & b & w'' & Hk & HQ).
  exists b, w''. split; [|done].
  unfold mbind, M_bind. by rewrite Hm.
Qed.

Lemma yields_mono {A} (m : M Rand A) w (P Q : A → World Rand → Prop) :
  yields m w P → (∀ a w', P a w' → Q a w') → yields m w Q.
Proof. intros (a & w' & Hm & HP) HPQ. exists a, w'. auto. Qed.

(** A computation in two steps returns when both steps do. *)
Lemma bind_Some {A B} (m : M Rand A) (k : A → M Rand B) w r :
  (m ≫= k) w = Some r ↔ ∃ a w1, m w = Some (a, w1) ∧ k a w1 = Some r.
Proof.
  unfold mbind, M_bind. destruct (m w) as [[a w1]|]; split.
  - intros H. by exists a, w1.
  - by intros (a' & w1' & [= <- <-] & H).
  - done.
  - by intros (a' & w1' & ? & _).
Qed.

(** The loop rule: an invariant over the iterations done so far. *)
Lemma yields_foldM {A B} (I : list A → B → World Rand → Prop)
    (body : B → A → M Rand B) (l : list A) (b : B) (w : World Rand) :
  I [] b w →
  (∀ done x todo b w, l = done ++ x :: todo → I done b w →
                      yields (body b x) w (I (done ++ [x]))) →
  yields (foldM body b l) w (I l).
Proof.
  intros Hinit Hstep.
  cut (∀ todo done b w, l = done ++ todo → I done b w →
                        yields (foldM body b todo) w (I l)).
  { intros H. by apply (H l []). }
  induction todo as [|x todo IH]; intros done b' w' Hl HI; simpl.
  - rewrite app_nil_r in Hl. subst. by apply yields_ret.
  - apply yields_bind.
    eapply yields_mono.
    + by eapply Hstep.
    + intros b'' w'' HI'. apply (IH (done ++ [x])); [|done].
      by rewrite <-app_assoc.
Qed.

Lemma yields_rangeM {A} (I : nat → World Rand → Prop)
    (body : nat → A → M Rand unit) (l : list A) (i : nat) (w : World Rand) :
  I i w →
  (∀ k x w, l !! k = Some x → I (i + k)%nat w →
            yields (body (i + k)%nat x) w (λ _, I (S (i + k)))) →
  yields (rangeM body i l) w (λ _, I (i + length l)%nat).
Proof.
  revert i w. induction l as [|x l IH]; intros i w HI Hstep; simpl.
  - apply yields_ret. by rewrite Nat.add_0_r.
  - apply yields_bind.
    eapply yields_mono.
    + specialize (Hstep 0%nat x w). rewrite Nat.add_0_r in Hstep. by apply Hstep.
    + intros [] w' HI'. simpl in HI'.
      replace (i + S (length l))%nat with (S i + length l)%nat by lia.
      apply IH; [done|].
      intros k y w'' Hk HI''.
      rewrite Nat.add_succ_comm in HI'' |- *.
      by apply Hstep.
Qed.

(** *** [append] *)

Lemma index_contents s i c w :
  contents (heap w) s !! i = Some c → index s i w = Some (c, w).
Proof.
  rewrite lookup_contents. unfold index.
  case_decide; [|done]. by intros ->.
Qed.

Lemma append_in_place s es w :
  (len s + length es ≤ cap s)%nat →
  append growslice s es w =
    Some (mkSlice (arr s) (off s) (len s + length es) (cap s),
          set_heap (alter (list_inserts (off s + len s) es) (arr s) (heap w)) w).
Proof. intros H. unfold append. by rewrite decide_True. Qed.

Lemma append_grow s es w :
  (cap s < len s + length es)%nat →
  append growslice s es w =
    let n := (len s + length es)%nat in
    let c := (n + growslice (cap s) n)%nat in
    let l := fresh (dom (heap w)) in
    Some (mkSlice l 0 n c,
          set_heap (<[l := contents (heap w) s ++ es ++ replicate (c - n) zeroCard]>
                      (heap w)) w).
Proof. intros H. unfold append. rewrite decide_False by lia. done. Qed.

Lemma append_appended s es w :
  valid (heap w) s → yields (append growslice s es) w (appended w s es).
Proof.
  intros Hv. pose proof Hv as [Hlc Hcap].
  destruct (decide (len s + length es ≤ cap s)%nat) as [Hfit|Hfit].
  - eexists _, _. split; [by apply append_in_place|].
    split; simpl.
    + split; simpl; [lia|].
      rewrite backing_alter_inserts, backing_mkSlice. simpl.
      rewrite decide_True by done. by rewrite length_inserts.
    + done.
    + apply list_eq. intros i.
      rewrite lookup_contents, backing_alter_inserts, backing_mkSlice. simpl.
      rewrite (decide_True (P := arr s = arr s)) by done.
      destruct (decide (i < len s)%nat) as [Hi|Hi].
      * rewrite decide_True by lia.
        rewrite list_lookup_inserts_lt by lia.
        rewrite lookup_app_l by (rewrite length_contents by done; lia).
        rewrite lookup_contents. by rewrite decide_True.
      * rewrite lookup_app_r by (rewrite length_contents by done; lia).
        rewrite length_contents by done.
        case_decide as Hi'.
        -- rewrite list_lookup_inserts by lia. f_equal. lia.
        -- symmetry. apply lookup_ge_None. lia.
    + done.
    + intros t [Htl Htc] Hsep.
      split; [|split].
      * split; [done|]. rewrite backing_alter_inserts.
        case_decide; [by rewrite length_inserts|done].
      * apply list_eq. intros i.
        rewrite !lookup_contents, backing_alter_inserts.
        case_decide; [|done].
        case_decide; [|done].
        rewrite list_lookup_inserts_lt; [done|]. destruct Hsep; [done|lia].
      * simpl. destruct Hsep; [by left|right; lia].
    + intros h0 Hsub Hdet. split; [|done].
      apply map_subseteq_spec. intros l a Hl.
      pose proof (lookup_weaken _ _ _ _ Hl Hsub) as Hl'.
      destruct (decide (arr s = l)) as [Heq|Hne].
      * subst l. rewrite lookup_alter_eq, Hl'. simpl.
        destruct Hdet as [Hc0|Hnd].
        -- destruct es; [done|]. simpl in Hfit. lia.
        -- exfalso. apply Hnd, elem_of_dom. by eexists.
      * by rewrite lookup_alter_ne.
  - eexists _, _. split; [apply append_grow; lia|].
    pose proof (fresh_unallocated (heap w)) as Hfresh.
    assert (Hsub : heap w ⊆ <[fresh (dom (heap w)) :=
              contents (heap w) s ++ es ++
              replicate (len s + length es + growslice (cap s) (len s + length es)
                         - (len s + length es)) zeroCard]> (heap w))
      by (by apply insert_subseteq).
    split; simpl.
    + split; simpl; [lia|].
      rewrite backing_insert. simpl. rewrite decide_True by done.
      rewrite !length_app, length_replicate, length_contents by done. lia.
    + done.
    + unfold contents at 1. simpl.
      rewrite backing_insert. simpl. rewrite decide_True by done.
      rewrite app_assoc. apply take_app_length'.
      rewrite length_app, length_contents by done. done.
    + done.
    + intros t Ht _.
      split; [by eapply valid_weaken|].
      split; [by apply contents_weaken|].
      simpl. destruct (decide (arr t = fresh (dom (heap w)))) as [Heq|]; [|by left].
      rewrite <-Heq in Hfresh.
      destruct (valid_unallocated _ _ Ht Hfresh) as (? & ? & ?). right. lia.
    + intros h0 Hsub0 _. split; [by etrans|].
      right. intros Hin. apply elem_of_dom in Hin as [a Ha].
      pose proof (lookup_weaken _ _ _ _ Ha Hsub0). congruence.
Qed.

Lemma appended_refl w s : valid (heap w) s → appended w s [] s w.
Proof.
  intros Hv. split.
  - done.
  - simpl. lia.
  - by rewrite app_nil_r.
  - done.
  - intros t Ht Hsep. done.
  - intros h0 Hsub Hdet. done.
Qed.

Lemma appended_trans w0 s0 es1 s1 w1 es2 s2 w2 :
  appended w0 s0 es1 s1 w1 → appended w1 s1 es2 s2 w2 →
  appended w0 s0 (es1 ++ es2) s2 w2.
Proof.
  intros H1 H2. split.
  - apply H2.
  - rewrite (appended_len _ _ _ _ _ H2), (appended_len _ _ _ _ _ H1), length_app. lia.
  - rewrite (appended_contents _ _ _ _ _ H2), (appended_contents _ _ _ _ _ H1).
    by rewrite app_assoc.
  - rewrite (appended_rand _ _ _ _ _ H2). apply H1.
  - intros t Ht Hsep.
    destruct (appended_frame _ _ _ _ _ H1 t Ht Hsep) as (Ht1 & Hc1 & Hsep1).
    destruct (appended_frame _ _ _ _ _ H2 t Ht1 Hsep1) as (Ht2 & Hc2 & Hsep2).
    split; [done|]. split; [congruence|done].
  - intros h0 Hsub Hdet.
    destruct (appended_fresh _ _ _ _ _ H1 h0 Hsub Hdet) as [Hsub1 Hdet1].
    apply (appended_fresh _ _ _ _ _ H2 h0 Hsub1 Hdet1).
Qed.

(** The slice that was appended to still holds its own cards. *)
Lemma appended_input w s es s' w' :
  valid (heap w) s → appended w s es s' w' →
  contents (heap w') s = contents (heap w) s.
Proof.
  intros Hv Ha.
  destruct (appended_frame _ _ _ _ _ Ha s Hv) as (_ & Hc & _); [right; lia|done].
Qed.

(** An append to a slice that owns no array of the heap [h0] leaves every
    slice of [h0] alone. *)
Lemma appended_detached w s es s' w' t :
  cap s = 0%nat ∨ arr s ∉ dom (heap w) →
  appended w s es s' w' → valid (heap w) t →
  valid (heap w') t ∧ contents (heap w') t = contents (heap w) t.
Proof.
  intros Hdet Ha Ht.
  destruct (appended_fresh _ _ _ _ _ Ha (heap w)) as [Hsub _]; [done..|].
  split; [by eapply valid_weaken|by apply contents_weaken].
Qed.

(** While a result is built up from the nil slice, the heap the loop began
    with stays as it was. *)
Lemma appended_nil_heap w es ret w' :
  appended w nil_slice es ret w' → heap w ⊆ heap w'.
Proof.
  intros Ha. destruct (appended_fresh _ _ _ _ _ Ha (heap w)) as [Hsub _]; [done|by left|done].
Qed.

Lemma appended_nil_input w es ret w' cards :
  appended w nil_slice es ret w' → valid (heap w) cards →
  valid (heap w') cards ∧ contents (heap w') cards = contents (heap w) cards.
Proof.
  intros Ha Hv. eapply appended_detached; [|done..]. by left.
Qed.

(** *** [Jokers], [Filter], [Deck] and [New] *)

Lemma Jokers_appended n cards w :
  valid (heap w) cards →
  yields (Jokers growslice n cards) w (appended w cards (joker <$> seqZ 0 n)).
Proof.
  intros Hv. unfold Jokers.
  apply (yields_foldM (λ done, appended w cards (joker <$> done))).
  - by apply appended_refl.
  - intros done x todo c w' _ HI.
    eapply yields_mono; [apply append_appended, HI|].
    intros c' w'' Happ. rewrite fmap_app. by eapply appended_trans.
Qed.

Lemma Filter_appended f cards w :
  valid (heap w) cards →
  yields (Filter growslice f cards) w
    (appended w nil_slice (filter (λ c, negb (f c)) (contents (heap w) cards))).
Proof.
  intros Hv. unfold Filter.
  eapply yields_mono.
  - apply (yields_foldM (λ done, appended w nil_slice
             (filter (λ c, negb (f c)) (take (length done) (contents (heap w) cards))))).
    + apply appended_refl, valid_nil_slice.
    + intros done i todo ret w' Hl HI.
      pose proof (seq_split _ _ _ _ Hl) as ->.
      assert (length done < len cards)%nat as Hlt.
      { apply (f_equal length) in Hl.
        rewrite length_seq, length_app in Hl. simpl in Hl. lia. }
      destruct (appended_nil_input _ _ _ _ _ HI Hv) as [Hv' Hc'].
      destruct (lookup_lt_is_Some_2 (contents (heap w) cards) (length done))
        as [c Hc]; [by rewrite length_contents|].
      apply yields_bind. eexists c, w'. split.
      { apply index_contents. by rewrite Hc'. }
      rewrite length_app. simpl. rewrite Nat.add_1_r.
      rewrite (take_S_r _ _ _ Hc), filter_app.
      destruct (f c) eqn:Hf; simpl.
      * apply yields_ret.
        rewrite filter_cons_False by (rewrite Hf; intros []).
        by rewrite filter_nil, app_nil_r.
      * eapply yields_mono; [apply append_appended, HI|].
        intros ret' w'' Happ.
        rewrite filter_cons_True by (rewrite Hf; exact I). rewrite filter_nil.
        by eapply appended_trans.
  - intros ret w'. simpl. rewrite length_seq.
    rewrite take_ge by (by rewrite length_contents). done.
Qed.

Lemma Deck_appended n cards w :
  valid (heap w) cards →
  yields (Deck growslice n cards) w
    (appended w nil_slice (concat (replicate (Z.to_nat n) (contents (heap w) cards)))).
Proof.
  intros Hv. unfold Deck.
  eapply yields_mono.
  - apply (yields_foldM (λ done, appended w nil_slice
             (concat (replicate (length done) (contents (heap w) cards))))).
    + apply appended_refl, valid_nil_slice.
    + intros done i todo ret w' Hl HI.
      destruct (appended_nil_input _ _ _ _ _ HI Hv) as [Hv' Hc'].
      eapply yields_mono; [apply append_appended, HI|].
      intros ret' w'' Happ. simpl in Happ. rewrite Hc' in Happ.
      rewrite length_app. simpl. rewrite Nat.add_1_r.
      rewrite replicate_S_end, concat_app. simpl. rewrite app_nil_r.
      by eapply appended_trans.
  - intros ret w'. simpl. by rewrite length_seqZ.
Qed.

Lemma New_appended w :
  yields (New growslice []) w (appended w nil_slice standardDeck).
Proof.
  unfold New. apply yields_bind.
  eapply yields_mono.
  - apply (yields_foldM (λ done, appended w nil_slice (concat (suitCards <$> done)))).
    + apply appended_refl, valid_nil_slice.
    + intros done suit todo cards w' _ HI.
      eapply yields_mono.
      * apply (yields_foldM (λ done', appended w' cards (mkCard suit <$> done'))).
        -- apply appended_refl, HI.
        -- intros done' rank todo' cards' w'' _ HI'.
           eapply yields_mono; [apply append_appended, HI'|].
           intros c' w3 Happ. rewrite fmap_app. by eapply appended_trans.
      * intros cards' w'' HI'. fold (suitCards suit) in HI'.
        rewrite fmap_app, concat_app. cbn [fmap list_fmap concat].
        rewrite app_nil_r. by eapply appended_trans.
  - intros cards w' HI. simpl. by apply yields_ret.
Qed.

(** The array in which a run of appends, one card at a time, leaves its
    result: the array of the slice it began with as long as the capacity
    suffices, an array that was not there before as soon as it does not. *)
Lemma append_run_array (js : list Z) : ∀ (c ret : slice) w w',
  (len c ≤ cap c)%nat →
  foldM (λ c i, append growslice c [joker i]) c js w = Some (ret, w') →
  dom (heap w) ⊆ dom (heap w') ∧
  ((len c + length js ≤ cap c)%nat → arr ret = arr c ∧ off ret = off c) ∧
  ((cap c < len c + length js)%nat → arr ret ∉ dom (heap w)).
Proof.
  induction js as [|i js IH]; intros c ret w w' Hlc HF; simpl in HF.
  - injection HF as <- <-. split; [done|]. split; [done|]. simpl. lia.
  - apply bind_Some in HF as (c1 & w1 & Ha & HF). simpl.
    destruct (decide (len c + 1 ≤ cap c)%nat) as [Hfit|Hfit].
    + rewrite append_in_place in Ha by (simpl; lia). injection Ha as <- <-.
      apply IH in HF as (Hd & Hin & Hgr); [|simpl; lia].
      simpl in Hd, Hin, Hgr. rewrite dom_alter_L in Hd, Hgr.
      split; [done|]. split; intros ?; [apply Hin|apply Hgr]; lia.
    + rewrite append_grow in Ha by (simpl; lia). simpl in Ha. injection Ha as <- <-.
      apply IH in HF as (Hd & Hin & Hgr); [|simpl; lia].
      simpl in Hd, Hin, Hgr. rewrite dom_insert_L in Hd, Hgr.
      split; [intros l Hl; apply Hd, elem_of_union; by right|].
      split; [lia|]. intros _.
      destruct (decide (len c + 1 + length js ≤
                        len c + 1 + growslice (cap c) (len c + 1))%nat) as [Hfit'|Hfit'].
      * destruct (Hin Hfit') as [-> _]. apply is_fresh.
      * intros Hl. apply Hgr; [lia|]. apply elem_of_union. by right.
Qed.

(** *** [Shuffle] *)

(** The slice [Shuffle] returns is the one it made. *)
Lemma Shuffle_result cards ret w w' :
  Shuffle Perm cards w = Some (ret, w') →
  ret = mkSlice (fresh (dom (heap w))) 0 (len cards) (len cards).
Proof.
  unfold Shuffle. intros HS.
  apply bind_Some in HS as (r0 & w1 & Hmake & HS).
  apply bind_Some in HS as (perm & w2 & _ & HS).
  apply bind_Some in HS as ([] & w3 & _ & [= <- _]).
  by injection Hmake as <- _.
Qed.

Lemma Shuffle_shuffled cards w :
  valid (heap w) cards → yields (Shuffle Perm cards) w (shuffled Perm w cards).
Proof using Perm_permutation.
  intros Hv. unfold Shuffle.
  set (n := len cards). set (h := heap w).
  set (l := fresh (dom h)).
  set (g := λ j : nat, contents h cards !!! j).
  destruct (Perm (shuffleRand w) n) as [perm r] eqn:HP.
  assert (Hperm : perm ≡ₚ seq 0 n).
  { pose proof (Perm_permutation (shuffleRand w) n) as H. by rewrite HP in H. }
  assert (Hfresh : h !! l = None) by apply fresh_unallocated.
  apply yields_bind.
  exists (mkSlice l 0 n n), (set_heap (<[l := replicate n zeroCard]> h) w).
  split; [done|].
  apply yields_bind.
  exists perm, (mkWorld (<[l := replicate n zeroCard]> h) r).
  split; [unfold rand_Perm; simpl; by rewrite HP|].
  apply yields_bind.
  pose (I := λ (k : nat) (w' : World Rand),
    shuffleRand w' = r ∧
    ∃ a, heap w' = <[l := a]> h ∧ length a = n ∧
         ∀ i, (i < k)%nat → a !! i = (g <$> perm) !! i).
  eapply yields_mono.
  - apply (yields_rangeM I).
    + split; [done|]. exists (replicate n zeroCard).
      split; [done|]. split; [apply length_replicate|]. intros i Hi. lia.
    + intros k j w' Hk (Hr & a & Hh & Hlen & Ha). simpl.
      assert (j < n)%nat as Hj.
      { assert (j ∈ seq 0 n) as Hin
          by (rewrite <-Hperm; by eapply list_elem_of_lookup_2).
        apply elem_of_seq in Hin. lia. }
      assert (Hsub : h ⊆ heap w') by (rewrite Hh; by apply insert_subseteq).
      assert (Hc : contents (heap w') cards !! j = Some (g j)).
      { rewrite (contents_weaken h) by done.
        apply list_lookup_lookup_total_lt. by rewrite length_contents. }
      assert (k < n)%nat as Hkn.
      { apply lookup_lt_Some in Hk.
        apply Permutation_length in Hperm. rewrite length_seq in Hperm. lia. }
      apply yields_bind. exists (g j), w'. split; [by apply index_contents|].
      eexists tt, _. split.
      * unfold assign. simpl.
        rewrite Hh, backing_insert. simpl.
        rewrite !(decide_True (P := l = l)) by done.
        rewrite decide_True by lia. done.
      * split; [done|]. exists (<[k := g j]> a).
        split; [simpl; apply alter_insert_eq|].
        split; [by rewrite length_insert|].
        intros i Hi. destruct (decide (i = k)) as [->|Hne].
        -- rewrite list_lookup_insert_eq by lia.
           by rewrite list_lookup_fmap, Hk.
        -- rewrite list_lookup_insert_ne by done. apply Ha. lia.
  - intros [] w' (Hr & a & Hh & Hlen & Ha). simpl in Ha.
    apply yields_ret.
    assert (Hlp : length perm = n).
    { apply Permutation_length in Hperm. by rewrite length_seq in Hperm. }
    assert (Hbk : backing (heap w') (mkSlice l 0 n n) = a).
    { rewrite Hh, backing_insert. simpl. by rewrite decide_True. }
    split; simpl.
    + split; simpl; [lia|]. rewrite Hbk. lia.
    + done.
    + unfold contents at 1. rewrite Hbk. simpl.
      rewrite drop_0, take_ge by lia.
      fold h n. rewrite HP. simpl. fold g.
      apply list_eq. intros i. destruct (decide (i < n)%nat).
      * apply Ha. lia.
      * rewrite !lookup_ge_None_2; [done|rewrite length_fmap; lia|lia].
    + rewrite Hh. by apply insert_subseteq.
    + fold n. by rewrite HP.
Qed.

(** *** [DefaultSort] and [Sort] *)

Lemma assign_in_place x i c w :
  valid (heap w) x → (i < len x)%nat →
  yields (assign x i c) w (λ _, in_place w x (<[i := c]> (contents (heap w) x))).
Proof.
  intros Hv Hi. pose proof Hv as [Hlc Hcap].
  eexists tt, _. split.
  { unfold assign. rewrite decide_True by lia. done. }
  assert (Hb : ∀ t, backing (alter (<[(off x + i)%nat := c]>) (arr x) (heap w)) t =
     if decide (arr t = arr x) then <[(off x + i)%nat := c]> (backing (heap w) t)
     else backing (heap w) t) by (intros t; by apply backing_alter).
  split; simpl.
  - split; [done|]. rewrite Hb, decide_True by done. by rewrite length_insert.
  - apply list_eq. intros k.
    rewrite lookup_contents, Hb, (decide_True (P := arr x = arr x)) by done.
    destruct (decide (k = i)) as [->|Hne].
    + rewrite decide_True by done.
      rewrite !list_lookup_insert_eq; [done|rewrite length_contents by done; lia|lia].
    + rewrite !list_lookup_insert_ne by lia.
      by rewrite lookup_contents.
  - done.
  - intros l Hl. by rewrite lookup_alter_ne.
Qed.

Lemma in_place_trans w x l1 w1 l2 w2 :
  in_place w x l1 w1 → in_place w1 x l2 w2 → in_place w x l2 w2.
Proof.
  intros H1 H2. split.
  - apply H2.
  - apply H2.
  - rewrite (in_place_rand _ _ _ _ H2). apply H1.
  - intros l Hl. rewrite (in_place_frame _ _ _ _ H2 l Hl). by apply H1.
Qed.

Lemma in_place_refl w x : valid (heap w) x → in_place w x (contents (heap w) x) w.
Proof. intros Hv. by split. Qed.

Lemma Swapper_in_place x i j l' w :
  valid (heap w) x → swap_list i j (contents (heap w) x) = Some l' →
  yields (Swapper x i j) w (λ _, in_place w x l').
Proof.
  intros Hv Hs. unfold swap_list in Hs.
  destruct (contents (heap w) x !! i) as [a|] eqn:Ha; [|done].
  destruct (contents (heap w) x !! j) as [b|] eqn:Hb; [|done].
  simpl in Hs. injection Hs as <-.
  assert (i < len x ∧ j < len x)%nat as [Hi Hj].
  { apply lookup_lt_Some in Ha, Hb. by rewrite length_contents in Ha, Hb. }
  unfold Swapper.
  apply yields_bind. exists a, w. split; [by apply index_contents|].
  apply yields_bind. exists b, w. split; [by apply index_contents|].
  apply yields_bind.
  eapply yields_mono; [by apply assign_in_place|].
  intros [] w1 H1.
  eapply yields_mono; [apply assign_in_place; [apply H1|done]|].
  intros [] w2 H2. simpl in H2.
  rewrite (in_place_contents _ _ _ _ H1) in H2.
  by eapply in_place_trans.
Qed.

Lemma Less_lessCard x i j a b w :
  contents (heap w) x !! i = Some a → contents (heap w) x !! j = Some b →
  Less x i j w = Some (lessCard a b, w).
Proof.
  intros Ha Hb. unfold Less, mbind, M_bind.
  by rewrite (index_contents _ _ _ _ Ha), (index_contents _ _ _ _ Hb).
Qed.

(** On the heap the script does to the slice what it does to the list of
    the slice's cards. *)
Lemma runSort_Less x p : ∀ w l',
  valid (heap w) x → execSort lessCard p (contents (heap w) x) = Some l' →
  yields (runSort (Less x) (Swapper x) p) w (λ _, in_place w x l').
Proof.
  induction p as [|i j k IH|i j kt IHt kf IHf]; intros w l' Hv H; simpl in H |- *.
  - injection H as <-. apply yields_ret. by apply in_place_refl.
  - destruct (swap_list i j (contents (heap w) x)) as [l1|] eqn:Hs; [|done].
    simpl in H. apply yields_bind.
    eapply yields_mono; [by eapply Swapper_in_place|].
    intros [] w1 H1. simpl.
    eapply yields_mono.
    + apply IH; [apply H1|]. by rewrite (in_place_contents _ _ _ _ H1).
    + intros [] w2 H2. by eapply in_place_trans.
  - destruct (contents (heap w) x !! i) as [a|] eqn:Ha; [|done].
    destruct (contents (heap w) x !! j) as [b|] eqn:Hb; [|done].
    simpl in H. apply yields_bind.
    exists (lessCard a b), w. split; [by apply Less_lessCard|].
    destruct (lessCard a b); auto.
Qed.

(** A comparison that answers as [Less] does drives the script the same way. *)
Lemma runSort_ext (less1 less2 : nat → nat → M Rand bool) swap p :
  (∀ i j w, less1 i j w = less2 i j w) →
  ∀ w, runSort less1 swap p w = runSort less2 swap p w.
Proof.
  intros Heq. induction p as [|i j k IH|i j kt IHt kf IHf]; intros w; simpl.
  - done.
  - unfold mbind, M_bind. destruct (swap i j w) as [[[] w1]|]; auto.
  - unfold mbind, M_bind. rewrite Heq.
    destruct (less2 i j w) as [[[] w1]|]; auto.
Qed.

Lemma DefaultSort_in_place cards w :
  valid (heap w) cards →
  ∃ l', l' ≡ₚ contents (heap w) cards ∧ StronglySorted byAbsRank l' ∧
        yields (DefaultSort sortSteps cards) w (λ r w', r = cards ∧ in_place w cards l' w').
Proof using sortSteps_sorts.
  intros Hv.
  destruct (sortSteps_sorts lessCard strict_weak_lessCard (contents (heap w) cards))
    as (l' & Hex & Hsorted).
  rewrite length_contents in Hex by done.
  exists l'. split; [by eapply execSort_Permutation|]. split.
  - eapply StronglySorted_mono; [|done].
    intros a b. unfold inOrder, lessCard, byAbsRank. rewrite bool_decide_eq_false. lia.
  - unfold DefaultSort, sort_Slice. apply yields_bind.
    eapply yields_mono; [by apply runSort_Less|].
    intros [] w' Hin. by apply yields_ret.
Qed.

(** ** The claims *)

(** C1. [New] without options returns the 52 standard cards: every card of
    the four suits and thirteen ranks once, the card of the [i]-th suit and
    rank [r] at position [13 * i + (r - 1)], which is Spades Ace to King,
    then Diamonds, Clubs and Hearts. *)
Theorem New_standard_deck (w : World Rand) :
  ∃ cards w', New growslice [] w = Some (cards, w') ∧
    length (contents (heap w') cards) = 52%nat ∧
    NoDup (contents (heap w') cards) ∧
    (∀ c, c ∈ contents (heap w') cards ↔ Suit c ∈ suits ∧ Ace ≤ Rank c ≤ King) ∧
    (∀ (i : nat) suit rank, suits !! i = Some suit → Ace ≤ rank ≤ King →
       contents (heap w') cards !! (13 * i + Z.to_nat (rank - Ace))%nat
         = Some (mkCard suit rank)).
Proof.
  destruct (New_appended w) as (cards & w' & HN & Happ).
  exists cards, w'. split; [done|].
  rewrite (appended_contents _ _ _ _ _ Happ), contents_empty by done. simpl.
  split; [done|]. split; [|split].
  - apply (bool_decide_unpack _). by vm_compute.
  - apply elem_of_standardDeck.
  - intros i suit rank Hi Hr.
    assert (∃ k : nat, (k < 13)%nat ∧ rank = Z.of_nat k + 1) as (k & Hk & ->).
    { exists (Z.to_nat (rank - 1)). unfold Ace, King in Hr. lia. }
    replace (Z.to_nat (Z.of_nat k + 1 - Ace)) with k by (unfold Ace; lia).
    do 4 (destruct i as [|i];
          [injection Hi as <-; do 13 (destruct k as [|k]; [reflexivity|]); lia|]).
    done.
Qed.

(** C2. [DefaultSort] turns any rearrangement of the standard deck into the
    standard deck, Spades Ace to King first, then Diamonds, Clubs and
    Hearts; sorting the result once more changes nothing. *)
Theorem DefaultSort_standard (cards : slice) (w : World Rand) :
  valid (heap w) cards →
  contents (heap w) cards ≡ₚ standardDeck →
  ∃ w', DefaultSort sortSteps cards w = Some (cards, w') ∧
        contents (heap w') cards = standardDeck ∧
        ∃ w'', DefaultSort sortSteps cards w' = Some (cards, w'') ∧
               contents (heap w'') cards = contents (heap w') cards.
Proof using sortSteps_sorts.
  intros Hv Hp.
  destruct (DefaultSort_in_place cards w Hv)
    as (l1 & Hp1 & Hs1 & r1 & w1 & HD1 & -> & Hin1).
  assert (l1 = standardDeck) as -> by (apply sorted_standardDeck; [by rewrite Hp1|done]).
  exists w1. split; [done|].
  split; [apply Hin1|].
  destruct (DefaultSort_in_place cards w1 (in_place_valid _ _ _ _ Hin1))
    as (l2 & Hp2 & Hs2 & r2 & w2 & HD2 & -> & Hin2).
  rewrite (in_place_contents _ _ _ _ Hin1) in Hp2 |- *.
  assert (l2 = standardDeck) as -> by (by apply sorted_standardDeck).
  exists w2. split; [done|apply Hin2].
Qed.

(** C3, as the code has it. [Shuffle], [Jokers], [Filter] and [Deck] leave
    the deck they are given as it was.  [Shuffle], [Filter] and [Deck]
    return a new sequence: they change no array that was there, and their
    result lies in an array that was not there before (or, when [Filter] or
    [Deck] has no card to return, is a slice of capacity 0, which has no
    array).  [Jokers] returns a new sequence when the jokers do not fit the
    capacity of the deck; when they fit, its result is a slice over the
    array of the deck, from the same position.  [Sort] hands back the very
    slice it was given, and so does [DefaultSort], which has rearranged it
    where it lies: the deck that was passed in now holds its cards in
    ascending absolute rank. *)
Theorem transforms_keep_input (cards : slice) (w : World Rand) :
  valid (heap w) cards →
  (∃ ret w', Shuffle Perm cards w = Some (ret, w') ∧ heap w ⊆ heap w' ∧
             (arr ret ∉ dom (heap w)) ∧
             contents (heap w') cards = contents (heap w) cards) ∧
  (∀ n, ∃ ret w', Jokers growslice n cards w = Some (ret, w') ∧
                  contents (heap w') cards = contents (heap w) cards ∧
                  ((cap cards < len cards + Z.to_nat n)%nat →
                   arr ret ∉ dom (heap w)) ∧
                  ((len cards + Z.to_nat n ≤ cap cards)%nat →
                   arr ret = arr cards ∧ off ret = off cards)) ∧
  (∀ f, ∃ ret w', Filter growslice f cards w = Some (ret, w') ∧ heap w ⊆ heap w' ∧
                  (cap ret = 0%nat ∨ arr ret ∉ dom (heap w)) ∧
                  contents (heap w') cards = contents (heap w) cards) ∧
  (∀ n, ∃ ret w', Deck growslice n cards w = Some (ret, w') ∧ heap w ⊆ heap w' ∧
                  (cap ret = 0%nat ∨ arr ret ∉ dom (heap w)) ∧
                  contents (heap w') cards = contents (heap w) cards) ∧
  (∀ less ret w', Sort sortSteps less cards w = Some (ret, w') → ret = cards) ∧
  (∃ w', DefaultSort sortSteps cards w = Some (cards, w') ∧
         contents (heap w') cards ≡ₚ contents (heap w) cards ∧
         StronglySorted byAbsRank (contents (heap w') cards)).
Proof using Perm_permutation sortSteps_sorts.
  intros Hv. split; [|split; [|split; [|split; [|split]]]].
  - destruct (Shuffle_shuffled cards w Hv) as (ret & w' & HS & Hsh).
    exists ret, w'. split; [done|]. split; [apply Hsh|].
    split; [rewrite (Shuffle_result _ _ _ _ HS); apply is_fresh|].
    apply contents_weaken; [apply Hsh|done].
  - intros n. destruct (Jokers_appended n cards w Hv) as (ret & w' & HJ & Happ).
    exists ret, w'. split; [done|]. split; [by eapply appended_input|].
    destruct (append_run_array (seqZ 0 n) cards ret w w' (proj1 Hv) HJ)
      as (_ & Hin & Hgr).
    rewrite length_seqZ in Hin, Hgr. done.
  - intros f. destruct (Filter_appended f cards w Hv) as (ret & w' & HF & Happ).
    exists ret, w'. split; [done|].
    split; [by eapply appended_nil_heap|].
    split; [|by eapply appended_nil_input].
    by apply (appended_fresh _ _ _ _ _ Happ (heap w)); [|left].
  - intros n. destruct (Deck_appended n cards w Hv) as (ret & w' & HD & Happ).
    exists ret, w'. split; [done|].
    split; [by eapply appended_nil_heap|].
    split; [|by eapply appended_nil_input].
    by apply (appended_fresh _ _ _ _ _ Happ (heap w)); [|left].
  - intros less ret w'. unfold Sort, mbind, M_bind.
    destruct (sort_Slice sortSteps cards (less cards) w) as [[[] w1]|]; [|done].
    by intros [= <- _].
  - destruct (DefaultSort_in_place cards w Hv)
      as (l' & Hp & Hs & ret & w' & HD & -> & Hin).
    exists w'. split; [done|].
    by rewrite (in_place_contents _ _ _ _ Hin).
Qed.

(** C4. [Shuffle] returns as many cards as it was given, the same cards
    rearranged, and leaves the deck it was given as it was. *)
Theorem Shuffle_permutation (cards : slice) (w : World Rand) :
  valid (heap w) cards →
  ∃ ret w', Shuffle Perm cards w = Some (ret, w') ∧
    len ret = len cards ∧
    length (contents (heap w') ret) = length (contents (heap w) cards) ∧
    contents (heap w') ret ≡ₚ contents (heap w) cards ∧
    contents (heap w') cards = contents (heap w) cards.
Proof using Perm_permutation.
  intros Hv.
  destruct (Shuffle_shuffled cards w Hv) as (ret & w' & HS & Hsh).
  exists ret, w'. split; [done|].
  assert (Hp : contents (heap w') ret ≡ₚ contents (heap w) cards).
  { rewrite (shuffled_contents _ _ _ _ _ Hsh), Perm_permutation.
    apply reflexive_eq. apply list_eq. intros i.
    rewrite list_lookup_fmap.
    destruct (decide (i < len cards)%nat) as [Hi|Hi].
    - rewrite lookup_seq_lt by done. simpl.
      symmetry. apply list_lookup_lookup_total_lt. by rewrite length_contents.
    - rewrite lookup_seq_ge by lia. simpl.
      symmetry. apply lookup_ge_None. rewrite length_contents by done. lia. }
  split; [apply Hsh|]. split; [by rewrite Hp|]. split; [done|].
  apply contents_weaken; [apply Hsh|done].
Qed.

(** C5, as the code has it. [Jokers n] returns the cards it was given, in
    their order, followed by [n] cards of suit [Joker]; the [i]-th of them
    has rank [i] reduced to eight bits, which is [i] itself as long as there
    are no more than 256 jokers. *)
Theorem Jokers_appends (n : Z) (cards : slice) (w : World Rand) :
  valid (heap w) cards →
  ∃ ret w', Jokers growslice n cards w = Some (ret, w') ∧
    contents (heap w') ret =
      contents (heap w) cards ++ ((λ i, mkCard Joker (i `mod` 256)) <$> seqZ 0 n) ∧
    (n ≤ 256 →
     contents (heap w') ret = contents (heap w) cards ++ (mkCard Joker <$> seqZ 0 n)) ∧
    take (len cards) (contents (heap w') ret) = contents (heap w) cards ∧
    length (contents (heap w') ret) = (len cards + Z.to_nat n)%nat.
Proof.
  intros Hv.
  destruct (Jokers_appended n cards w Hv) as (ret & w' & HJ & Happ).
  exists ret, w'. split; [done|].
  pose proof (appended_contents _ _ _ _ _ Happ) as Hc.
  split; [done|]. rewrite Hc. split; [|split].
  - intros Hn. f_equal. apply list_eq. intros i.
    rewrite !list_lookup_fmap.
    destruct (seqZ 0 n !! i) as [k|] eqn:Hk; [|done]. simpl.
    apply lookup_seqZ in Hk. unfold joker, uint8_of_int.
    rewrite Z.mod_small by lia. done.
  - apply take_app_length'. by rewrite length_contents.
  - by rewrite length_app, length_fmap, length_seqZ, length_contents.
Qed.

(** C6. [Filter f] returns the cards for which [f] is false, in the order
    they had; when [f] holds of every card that is the empty deck. *)
Theorem Filter_removes (f : Card → bool) (cards : slice) (w : World Rand) :
  valid (heap w) cards →
  ∃ ret w', Filter growslice f cards w = Some (ret, w') ∧
    contents (heap w') ret = filter (λ c, f c = false) (contents (heap w) cards) ∧
    ((∀ c, c ∈ contents (heap w) cards → f c = true) →
     contents (heap w') ret = [] ∧ len ret = 0%nat).
Proof.
  intros Hv.
  destruct (Filter_appended f cards w Hv) as (ret & w' & HF & Happ).
  exists ret, w'. split; [done|].
  pose proof (appended_contents _ _ _ _ _ Happ) as Hc.
  rewrite (contents_empty _ nil_slice) in Hc by done. simpl in Hc.
  assert (Hfilter : ∀ l : list Card,
            filter (λ c, negb (f c)) l = filter (λ c, f c = false) l).
  { intros l. apply list_filter_iff. intros c. by destruct (f c). }
  rewrite Hfilter in Hc. split; [done|].
  intros Hall.
  assert (filter (λ c, f c = false) (contents (heap w) cards) = []) as Hnil.
  { by apply filter_all_removed. }
  split; [congruence|].
  rewrite <-(length_contents (heap w') ret) by apply Happ.
  by rewrite Hc, Hnil.
Qed.

(** C7. [Deck n] returns [n] copies of the deck it was given, one after the
    other; none for [n = 0], the deck itself for [n = 1]. *)
Theorem Deck_repeats (n : Z) (cards : slice) (w : World Rand) :
  valid (heap w) cards →
  ∃ ret w', Deck growslice n cards w = Some (ret, w') ∧
    contents (heap w') ret =
      concat (replicate (Z.to_nat n) (contents (heap w) cards)) ∧
    length (contents (heap w') ret) = (Z.to_nat n * len cards)%nat ∧
    (n = 0 → contents (heap w') ret = []) ∧
    (n = 1 → contents (heap w') ret = contents (heap w) cards).
Proof.
  intros Hv.
  destruct (Deck_appended n cards w Hv) as (ret & w' & HD & Happ).
  exists ret, w'. split; [done|].
  pose proof (appended_contents _ _ _ _ _ Happ) as Hc.
  rewrite (contents_empty _ nil_slice) in Hc by done. simpl in Hc.
  rewrite Hc. split; [done|]. split; [|split].
  - generalize (Z.to_nat n). intros k. induction k as [|k IH]; [done|].
    simpl. rewrite length_app, IH, length_contents by done. lia.
  - by intros ->.
  - intros ->. simpl. by rewrite app_nil_r.
Qed.

(** C8. [Sort] with a comparison that answers as [Less] does returns what
    [DefaultSort] returns. *)
Theorem Sort_Less_DefaultSort (less : slice → nat → nat → M Rand bool) :
  (∀ cards i j w, less cards i j w = Less cards i j w) →
  ∀ cards w, Sort sortSteps less cards w = DefaultSort sortSteps cards w.
Proof.
  intros Heq cards w. unfold Sort, DefaultSort, sort_Slice, mbind, M_bind.
  by rewrite (runSort_ext (less cards) (Less cards)).
Qed.

(** C9. A card of suit [Joker] is rendered as the name of its suit; any
    other card as the name of its rank, [ of ], and the name of its suit
    with an [s]. *)
Theorem Card_String_render (c : Card) :
  (Suit c = Joker → Card_String c = Suit_String Joker) ∧
  (Suit c ≠ Joker →
   Card_String c = Rank_String (Rank c) +:+ " of " +:+ Suit_String (Suit c) +:+ "s").
Proof.
  unfold Card_String. split; intros Hs.
  - rewrite decide_True by done. by rewrite Hs.
  - rewrite decide_False by done. reflexivity.
Qed.

(** C10. The joker of rank 0 and the King of Hearts both have absolute rank
    52 and [Less] puts neither before the other; so whatever way
    [sort.Slice] sorts, there is an order of the two cards from which
    [DefaultSort] returns the joker in front of the King of Hearts, and one
    from which it returns the joker behind it. *)
Theorem Joker_ties_King_of_Hearts :
  absRank (mkCard Joker 0) = 52 ∧ absRank (mkCard Heart King) = 52 ∧
  (∀ cards w i j,
     contents (heap w) cards !! i = Some (mkCard Joker 0) →
     contents (heap w) cards !! j = Some (mkCard Heart King) →
     Less cards i j w = Some (false, w) ∧ Less cards j i w = Some (false, w)) ∧
  ∃ l1 l2,
    l1 ≡ₚ [mkCard Heart King; mkCard Joker 0] ∧
    l2 ≡ₚ [mkCard Heart King; mkCard Joker 0] ∧
    (∀ cards w, valid (heap w) cards → contents (heap w) cards = l1 →
       ∃ w', DefaultSort sortSteps cards w = Some (cards, w') ∧
             contents (heap w') cards = [mkCard Joker 0; mkCard Heart King]) ∧
    (∀ cards w, valid (heap w) cards → contents (heap w) cards = l2 →
       ∃ w', DefaultSort sortSteps cards w = Some (cards, w') ∧
             contents (heap w') cards = [mkCard Heart King; mkCard Joker 0]).
Proof using sortSteps_sorts.
  clear Perm_permutation.
  split; [done|]. split; [done|]. split.
  { intros cards w i j Hi Hj.
    by rewrite (Less_lessCard _ _ _ _ _ _ Hi Hj), (Less_lessCard _ _ _ _ _ _ Hj Hi). }
  set (J := mkCard Joker 0). set (K := mkCard Heart King).
  set (f1 := λ b : bool, if b then J else K).
  set (f2 := λ b : bool, if b then K else J).
  set (ltF := λ _ _ : bool, false).
  assert (H1 : ∀ a b, lessCard (f1 a) (f1 b) = ltF a b) by (by intros [] []).
  assert (H2 : ∀ a b, lessCard (f2 a) (f2 b) = ltF a b) by (by intros [] []).
  (* Both cards compare alike, so the script moves the two positions the
     same way whichever card stands where. *)
  destruct (sortSteps_sorts lessCard strict_weak_lessCard (f1 <$> [true; false]))
    as (l' & Hex & _).
  change (length (f1 <$> [true; false])) with 2%nat in Hex.
  rewrite (execSort_fmap f1 ltF lessCard _ H1) in Hex.
  destruct (execSort ltF (sortSteps 2) [true; false]) as [lb|] eqn:Hb; [|done].
  clear Hex l'.
  pose proof (execSort_Permutation _ _ _ _ Hb) as Hperm.
  assert (lb = [true; false] ∨ lb = [false; true]) as Hcases.
  { pose proof (Permutation_length Hperm) as Hlen.
    destruct lb as [|b1 [|b2 [|]]]; try done.
    assert (b1 ∈ [true; false] ∧ b2 ∈ [true; false] ∧ NoDup [b1; b2]) as (_ & _ & Hnd).
    { rewrite <-Hperm. split; [set_solver|]. split; [set_solver|].
      rewrite Hperm. apply (bool_decide_unpack _). by vm_compute. }
    apply NoDup_cons in Hnd as [Hne _].
    destruct b1, b2; auto; exfalso; apply Hne; set_solver. }
  assert (Hrun : ∀ (f : bool → Card) out,
            (∀ a b, lessCard (f a) (f b) = ltF a b) → f <$> lb = out →
            ∀ cards w, valid (heap w) cards →
              contents (heap w) cards = f <$> [true; false] →
              ∃ w', DefaultSort sortSteps cards w = Some (cards, w') ∧
                    contents (heap w') cards = out).
  { intros f out Hf Hout cards w Hv Hc.
    assert (len cards = 2%nat) as Hlen
      by (by rewrite <-(length_contents (heap w) cards), Hc).
    destruct (runSort_Less cards (sortSteps 2) w out Hv) as ([] & w' & Hr & Hin).
    { by rewrite Hc, (execSort_fmap f ltF lessCard _ Hf), Hb, <-Hout. }
    exists w'. split; [|apply Hin].
    unfold DefaultSort, sort_Slice, mbind, M_bind. by rewrite Hlen, Hr. }
  destruct Hcases as [-> | ->].
  - exists [J; K], [K; J].
    split; [apply Permutation_swap|]. split; [done|].
    split; [by apply (Hrun f1)|by apply (Hrun f2)].
  - exists [K; J], [J; K].
    split; [done|]. split; [apply Permutation_swap|].
    split; [by apply (Hrun f2)|by apply (Hrun f1)].
Qed.

(** ** Further properties of the code *)

(** *** Helpers *)

Lemma foldM_app {A B} (body : B → A → M Rand B) (l1 l2 : list A) : ∀ b w,
  foldM body b (l1 ++ l2) w = (b' ← foldM body b l1; foldM body b' l2) w.
Proof.
  induction l1 as [|x l1 IH]; intros b w; simpl; [done|].
  unfold mbind, M_bind in *. destruct (body b x w) as [[b1 w1]|]; [|done].
  apply IH.
Qed.

(** *** [New] *)

(** X1. [New] applies its options from left to right: with one more option
    at the end it returns what that option makes of the deck [New] returns
    with the others. *)
Theorem New_options_snoc (options : list (slice → M Rand slice))
    (opt : slice → M Rand slice) (w : World Rand) :
  New growslice (options ++ [opt]) w = (cards ← New growslice options; opt cards) w.
Proof.
  unfold New, mbind, M_bind.
  destruct (foldM _ nil_slice suits w) as [[c w1]|]; [|done].
  rewrite foldM_app. unfold mbind, M_bind.
  destruct (foldM _ c options w1) as [[c' w2]|]; [|done].
  simpl. unfold mbind, M_bind. by destruct (opt c' w2) as [[c'' w3]|].
Qed.

(** *** [absRank] and [Less] *)

(** X2. [absRank] tells cards apart as long as their ranks are real ones:
    two cards with ranks from Ace to King and the same absolute rank are the
    same card, whatever their suits. *)
Theorem absRank_unique (a b : Card) :
  Ace ≤ Rank a ≤ King → Ace ≤ Rank b ≤ King → absRank a = absRank b → a = b.
Proof.
  destruct a as [sa ra], b as [sb rb]. unfold absRank, maxRank, Ace, King. simpl.
  intros Ha Hb Heq. f_equal; lia.
Qed.

(** X3. The comparison [Less] returns reads the two cards and changes
    nothing; asked about a position that is not in the deck it panics. *)
Theorem Less_bounds (cards : slice) (i j : nat) (w : World Rand) :
  valid (heap w) cards →
  ((i < len cards)%nat → (j < len cards)%nat →
   ∃ a b, contents (heap w) cards !! i = Some a ∧
          contents (heap w) cards !! j = Some b ∧
          Less cards i j w = Some (bool_decide (absRank a < absRank b), w)) ∧
  ((len cards ≤ i)%nat ∨ (len cards ≤ j)%nat → Less cards i j w = None).
Proof.
  intros Hv. split.
  - intros Hi Hj.
    destruct (lookup_lt_is_Some_2 (contents (heap w) cards) i) as [a Ha];
      [by rewrite length_contents|].
    destruct (lookup_lt_is_Some_2 (contents (heap w) cards) j) as [b Hb];
      [by rewrite length_contents|].
    exists a, b. split; [done|]. split; [done|]. by apply Less_lessCard.
  - intros Hout. unfold Less, mbind, M_bind, index.
    destruct (decide (i < len cards)%nat) as [Hi|Hi].
    + destruct (backing (heap w) cards !! (off cards + i)%nat); [|done].
      rewrite decide_False by lia. done.
    + done.
Qed.

(** *** [Sort] and [DefaultSort] on any deck *)

Lemma index_lookup x i w :
  index x i w = (λ c, (c, w)) <$> contents (heap w) x !! i.
Proof.
  unfold index. rewrite lookup_contents. case_decide; [|done].
  by destruct (backing (heap w) x !! (off x + i)%nat).
Qed.

Lemma lessBy_lookup (lt : Card → Card → bool) x i j w :
  lessBy lt x i j w =
    a ← contents (heap w) x !! i; b ← contents (heap w) x !! j; Some (lt a b, w).
Proof.
  unfold lessBy, mbind, M_bind. rewrite index_lookup.
  destruct (contents (heap w) x !! i) as [a|]; simpl; [|done].
  rewrite index_lookup. by destruct (contents (heap w) x !! j) as [b|].
Qed.

Lemma only_window_refl w x : only_window w x w.
Proof. by split. Qed.

Lemma only_window_trans w x w1 w2 :
  only_window w x w1 → only_window w1 x w2 → only_window w x w2.
Proof.
  intros H1 H2. split.
  - rewrite (only_window_length _ _ _ H2). apply H1.
  - intros k Hk. rewrite (only_window_outside _ _ _ H2 k Hk). by apply H1.
  - intros l Hl. rewrite (only_window_others _ _ _ H2 l Hl). by apply H1.
  - rewrite (only_window_rand _ _ _ H2). apply H1.
Qed.

Lemma assign_only_window x i c w w' :
  assign x i c w = Some (tt, w') → only_window w x w'.
Proof.
  unfold assign. case_decide as Hi; [|done]. intros [= <-].
  assert (Hb : backing (alter (<[(off x + i)%nat := c]>) (arr x) (heap w)) x =
               <[(off x + i)%nat := c]> (backing (heap w) x)).
  { rewrite backing_alter by done. by rewrite decide_True. }
  split; simpl.
  - by rewrite Hb, length_insert.
  - intros k Hk. rewrite Hb. apply list_lookup_insert_ne. lia.
  - intros l Hl. by rewrite lookup_alter_ne.
  - done.
Qed.

Lemma Swapper_only_window x i j w w' :
  Swapper x i j w = Some (tt, w') → only_window w x w'.
Proof.
  unfold Swapper. intros (a & w1 & Ha & H)%bind_Some.
  apply bind_Some in H as (b & w2 & Hb & H).
  apply bind_Some in H as ([] & w3 & H3 & H4).
  rewrite index_lookup in Ha.
  destruct (contents (heap w) x !! i); [|done]. injection Ha as <- <-.
  rewrite index_lookup in Hb.
  destruct (contents (heap w) x !! j); [|done]. injection Hb as <- <-.
  eapply only_window_trans; by eapply assign_only_window.
Qed.

Lemma Swapper_None x i j w :
  swap_list i j (contents (heap w) x) = None → Swapper x i j w = None.
Proof.
  unfold swap_list, Swapper, mbind, M_bind. rewrite index_lookup.
  destruct (contents (heap w) x !! i) as [a|]; simpl; [|done].
  rewrite index_lookup. by destruct (contents (heap w) x !! j) as [b|].
Qed.

(** With a comparison of the cards, the script does on the heap exactly what
    it does on the list of the slice's cards: it ends where that ends,
    having touched the slice only, and panics where that is stuck. *)
Lemma runSort_lessBy (lt : Card → Card → bool) x p : ∀ w,
  valid (heap w) x →
  match execSort lt p (contents (heap w) x) with
  | Some l' => ∃ w', runSort (lessBy lt x) (Swapper x) p w = Some (tt, w') ∧
                     in_place w x l' w' ∧ only_window w x w'
  | None => runSort (lessBy lt x) (Swapper x) p w = None
  end.
Proof.
  induction p as [|i j k IH|i j kt IHt kf IHf]; intros w Hv; simpl.
  - exists w. split; [done|]. split; [by apply in_place_refl|apply only_window_refl].
  - destruct (swap_list i j (contents (heap w) x)) as [l1|] eqn:Hs; simpl.
    + destruct (Swapper_in_place x i j l1 w Hv Hs) as ([] & w1 & HS & H1).
      pose proof (Swapper_only_window _ _ _ _ _ HS) as Ho1.
      specialize (IH w1 (in_place_valid _ _ _ _ H1)).
      rewrite (in_place_contents _ _ _ _ H1) in IH.
      unfold mbind, M_bind. rewrite HS.
      destruct (execSort lt k l1) as [l'|]; [|done].
      destruct IH as (w' & Hr & H2 & Ho2). exists w'.
      split; [done|]. split; [by eapply in_place_trans|by eapply only_window_trans].
    + unfold mbind, M_bind. by rewrite Swapper_None.
  - pose proof (lessBy_lookup lt x i j w) as Hless.
    destruct (contents (heap w) x !! i) as [a|]; simpl in *;
      [|unfold mbind, M_bind; by rewrite Hless].
    destruct (contents (heap w) x !! j) as [b|]; simpl in *;
      [|unfold mbind, M_bind; by rewrite Hless].
    assert (Hstep : ∀ kt kf : M Rand unit,
              (lessBy lt x i j ≫= λ b : bool, if b then kt else kf) w =
              (if lt a b then kt else kf) w).
    { intros ??. unfold mbind, M_bind. by rewrite Hless. }
    rewrite Hstep. destruct (lt a b); [by apply IHt|by apply IHf].
Qed.


(** X5. [DefaultSort] touches the positions of the slice it is given and
    nothing else: the array behind the slice keeps its length and its cards
    before and behind the slice, every other array and the generator are as
    they were. *)
Theorem DefaultSort_only_window (cards : slice) (w : World Rand) :
  valid (heap w) cards →
  ∃ w', DefaultSort sortSteps cards w = Some (cards, w') ∧
    length (backing (heap w') cards) = length (backing (heap w) cards) ∧
    (∀ k, (k < off cards ∨ off cards + len cards ≤ k)%nat →
          backing (heap w') cards !! k = backing (heap w) cards !! k) ∧
    (∀ l, l ≠ arr cards → heap w' !! l = heap w !! l) ∧
    shuffleRand w' = shuffleRand w.
Proof using sortSteps_sorts.
  intros Hv.
  destruct (sortSteps_sorts lessCard strict_weak_lessCard (contents (heap w) cards))
    as (l' & Hex & Hs).
  rewrite length_contents in Hex by done.
  pose proof (runSort_lessBy lessCard cards (sortSteps (len cards)) w Hv) as Hrun.
  rewrite Hex in Hrun. destruct Hrun as (w' & Hr & _ & Ho).
  exists w'. split.
  { unfold DefaultSort, sort_Slice, mbind, M_bind.
    change (Less cards) with (lessBy (Rand := Rand) lessCard cards). by rewrite Hr. }
  split; [apply Ho|]. split; [apply Ho|]. split; apply Ho.
Qed.

(** X6. A deck that already ascends strictly by absolute rank comes back
    from [DefaultSort] as it was. *)
Theorem DefaultSort_sorted_fixed (cards : slice) (w : World Rand) :
  valid (heap w) cards →
  StronglySorted (λ a b, absRank a < absRank b) (contents (heap w) cards) →
  ∃ w', DefaultSort sortSteps cards w = Some (cards, w') ∧
        contents (heap w') cards = contents (heap w) cards.
Proof using sortSteps_sorts.
  intros Hv Hstrict.
  destruct (DefaultSort_in_place cards w Hv)
    as (l' & Hp & Hs & ret & w' & HD & -> & Hin).
  exists w'. split; [done|]. rewrite (in_place_contents _ _ _ _ Hin).
  apply (StronglySorted_unique_strong byAbsRank); [|done| |done].
  - intros a b Ha Hb Hab Hba. rewrite Hp in Ha.
    apply (strictly_sorted_key_inj absRank (contents (heap w) cards)); [done..|].
    unfold byAbsRank in *. lia.
  - eapply StronglySorted_mono; [|done]. intros a b. unfold byAbsRank. lia.
Qed.

(** X7. From [DefaultSort] every joker of rank 1 or more comes out behind
    every card of the standard deck. *)
Theorem DefaultSort_jokers_last (cards : slice) (w : World Rand) :
  valid (heap w) cards →
  ∃ w', DefaultSort sortSteps cards w = Some (cards, w') ∧
    ∀ i k j c,
      contents (heap w') cards !! i = Some j →
      contents (heap w') cards !! k = Some c →
      Suit j = Joker → 1 ≤ Rank j → c ∈ standardDeck → (k < i)%nat.
Proof using sortSteps_sorts.
  intros Hv.
  destruct (DefaultSort_in_place cards w Hv)
    as (l' & Hp & Hs & ret & w' & HD & -> & Hin).
  exists w'. split; [done|]. rewrite (in_place_contents _ _ _ _ Hin).
  intros i k j c Hj Hc Hsuit Hrank Hstd.
  apply elem_of_standardDeck in Hstd as [Hcs Hcr].
  assert (absRank c < absRank j) as Hlt.
  { unfold absRank, maxRank, suits, Spade, Diamond, Club, Heart, Joker, Ace, King in *.
    rewrite !elem_of_cons, elem_of_nil in Hcs. rewrite Hsuit. lia. }
  destruct (Nat.lt_trichotomy i k) as [Hik|[->|Hki]]; [| |done].
  - pose proof (StronglySorted_lookup _ _ _ _ _ _ Hs Hik Hj Hc) as Hle.
    unfold byAbsRank in Hle. lia.
  - rewrite Hj in Hc. injection Hc as ->. lia.
Qed.

(** X8. Whatever the comparison of the cards answers, consistent or not,
    and whatever script [sort.Slice] follows: if [Sort] returns, it returns
    the slice it was given with the cards it had, none lost and none twice,
    and has touched nothing outside it. *)
Theorem Sort_keeps_cards (lt : Card → Card → bool) (cards ret : slice)
    (w w' : World Rand) :
  valid (heap w) cards →
  Sort sortSteps (lessBy lt) cards w = Some (ret, w') →
  ret = cards ∧ contents (heap w') cards ≡ₚ contents (heap w) cards ∧
  (∀ l, l ≠ arr cards → heap w' !! l = heap w !! l).
Proof.
  intros Hv. unfold Sort, sort_Slice. intros ([] & w1 & Hr & [= <- <-])%bind_Some.
  split; [done|].
  pose proof (runSort_lessBy lt cards (sortSteps (len cards)) w Hv) as Hrun.
  destruct (execSort lt (sortSteps (len cards)) (contents (heap w) cards))
    as [l'|] eqn:Hex; [|congruence].
  destruct Hrun as (w2 & Hr2 & Hin & Ho).
  assert (w2 = w1) as -> by congruence.
  rewrite (in_place_contents _ _ _ _ Hin).
  split; [by eapply execSort_Permutation|apply Ho].
Qed.

(** *** [Shuffle] *)

Lemma shuffled_Permutation cards ret w w' :
  valid (heap w) cards → shuffled Perm w cards ret w' →
  contents (heap w') ret ≡ₚ contents (heap w) cards.
Proof using Perm_permutation.
  intros Hv Hsh.
  rewrite (shuffled_contents _ _ _ _ _ Hsh), Perm_permutation.
  apply reflexive_eq, list_eq. intros i. rewrite list_lookup_fmap.
  destruct (decide (i < len cards)%nat) as [Hi|Hi].
  - rewrite lookup_seq_lt by done. simpl.
    symmetry. apply list_lookup_lookup_total_lt. by rewrite length_contents.
  - rewrite lookup_seq_ge by lia. simpl.
    symmetry. apply lookup_ge_None. rewrite length_contents by done. lia.
Qed.

(** X9. [Shuffle] puts its result into a new array that is just as long as
    the deck; the card at position [i] of the result is the card at position
    [perm[i]] of the deck, where [perm] is the permutation the generator
    hands out next, and the generator is left in the state after that
    draw. *)
Theorem Shuffle_draws (cards : slice) (w : World Rand) :
  valid (heap w) cards →
  ∃ ret w', Shuffle Perm cards w = Some (ret, w') ∧
    (arr ret ∉ dom (heap w)) ∧ off ret = 0%nat ∧ cap ret = len cards ∧
    (∀ i j, (Perm (shuffleRand w) (len cards)).1 !! i = Some j →
            contents (heap w') ret !! i = contents (heap w) cards !! j) ∧
    shuffleRand w' = (Perm (shuffleRand w) (len cards)).2.
Proof using Perm_permutation.
  intros Hv.
  destruct (Shuffle_shuffled cards w Hv) as (ret & w' & HS & Hsh).
  exists ret, w'. split; [done|].
  assert (ret = mkSlice (fresh (dom (heap w))) 0 (len cards) (len cards)) as ->.
  { unfold Shuffle in HS.
    apply bind_Some in HS as (r0 & w1 & Hmake & HS).
    apply bind_Some in HS as (perm & w2 & _ & HS).
    apply bind_Some in HS as ([] & w3 & _ & [= <- _]).
    by injection Hmake as <- _. }
  simpl. split; [apply is_fresh|]. split; [done|]. split; [done|].
  split; [|apply Hsh].
  intros i j Hij. rewrite (shuffled_contents _ _ _ _ _ Hsh), list_lookup_fmap, Hij.
  simpl. symmetry. apply list_lookup_lookup_total_lt.
  rewrite length_contents by done.
  assert (j ∈ seq 0 (len cards)) as Hin.
  { rewrite <-(Perm_permutation (shuffleRand w) (len cards)).
    by eapply list_elem_of_lookup_2. }
  apply elem_of_seq in Hin. lia.
Qed.

(** *** Transforms one after the other *)

Lemma yields_seq {A B} (m : M Rand A) (k : A → M Rand B) w
    (P : A → World Rand → Prop) (Q : B → World Rand → Prop) :
  yields m w P → (∀ a w1, P a w1 → yields (k a) w1 Q) → yields (m ≫= k) w Q.
Proof.
  intros Hm Hk. apply yields_bind. eapply yields_mono; [done|]. auto.
Qed.

(** X10. [Jokers] a second time starts its ranks at 0 again: after
    [Jokers a] and [Jokers b] the deck ends in jokers of ranks
    [0 .. a-1] followed by jokers of ranks [0 .. b-1]. *)
Theorem Jokers_twice (a b : Z) (cards : slice) (w : World Rand) :
  valid (heap w) cards →
  ∃ ret w', (c ← Jokers growslice a cards; Jokers growslice b c) w = Some (ret, w') ∧
    contents (heap w') ret =
      contents (heap w) cards ++ (joker <$> seqZ 0 a) ++ (joker <$> seqZ 0 b).
Proof.
  intros Hv.
  destruct (yields_seq (Jokers growslice a cards) (Jokers growslice b) w
              (appended w cards (joker <$> seqZ 0 a))
              (λ ret w', contents (heap w') ret =
                 contents (heap w) cards ++ (joker <$> seqZ 0 a) ++ (joker <$> seqZ 0 b)))
    as (ret & w' & H & Hc).
  - by apply Jokers_appended.
  - intros c w1 H1.
    eapply yields_mono; [apply Jokers_appended, H1|].
    intros ret w' H2. simpl.
    rewrite (appended_contents _ _ _ _ _ H2), (appended_contents _ _ _ _ _ H1).
    by rewrite <-app_assoc.
  - by exists ret, w'.
Qed.

(** X11. [Filter] with the test for jokers undoes [Jokers]: from a deck
    without jokers, adding any number of jokers and filtering them out
    gives the cards of the deck back. *)
Theorem Filter_undoes_Jokers (n : Z) (cards : slice) (w : World Rand) :
  valid (heap w) cards →
  (∀ c, c ∈ contents (heap w) cards → Suit c ≠ Joker) →
  ∃ ret w', (c ← Jokers growslice n cards; Filter growslice isJoker c) w
              = Some (ret, w') ∧
    contents (heap w') ret = contents (heap w) cards.
Proof.
  intros Hv Hnone.
  destruct (yields_seq (Jokers growslice n cards) (Filter growslice isJoker) w
              (appended w cards (joker <$> seqZ 0 n))
              (λ ret w', contents (heap w') ret = contents (heap w) cards))
    as (ret & w' & H & Hc).
  - by apply Jokers_appended.
  - intros c w1 H1.
    eapply yields_mono; [apply Filter_appended, H1|].
    intros ret w' H2. simpl.
    rewrite (appended_contents _ _ _ _ _ H2), (appended_contents _ _ _ _ _ H1).
    rewrite (contents_empty _ nil_slice) by done. simpl.
    rewrite filter_app, filter_keep_all, filter_drop_all.
    + by rewrite app_nil_r.
    + intros c' (i & -> & _)%list_elem_of_fmap. unfold isJoker, joker. simpl.
      by intros [].
    + intros c' Hc'. unfold isJoker.
      rewrite bool_decide_eq_false_2 by (by apply Hnone). done.
  - by exists ret, w'.
Qed.

(** X12. [Filter] after [Filter] removes what either removes: the cards
    left are those for which both tests are false, in their order. *)
Theorem Filter_twice (f g : Card → bool) (cards : slice) (w : World Rand) :
  valid (heap w) cards →
  ∃ ret w', (c ← Filter growslice f cards; Filter growslice g c) w = Some (ret, w') ∧
    contents (heap w') ret =
      filter (λ c, f c = false ∧ g c = false) (contents (heap w) cards).
Proof.
  intros Hv.
  destruct (yields_seq (Filter growslice f cards) (Filter growslice g) w
              (appended w nil_slice (filter (λ c, negb (f c)) (contents (heap w) cards)))
              (λ ret w', contents (heap w') ret =
                 filter (λ c, f c = false ∧ g c = false) (contents (heap w) cards)))
    as (ret & w' & H & Hc).
  - by apply Filter_appended.
  - intros c w1 H1.
    eapply yields_mono; [apply Filter_appended, H1|].
    intros ret w' H2. simpl.
    rewrite (appended_contents _ _ _ _ _ H2), (appended_contents _ _ _ _ _ H1).
    rewrite !(contents_empty _ nil_slice) by done. simpl.
    rewrite list_filter_filter. apply list_filter_iff.
    intros c'. destruct (f c'), (g c'); simpl; split; intros [??]; done.
  - by exists ret, w'.
Qed.

(** X13. [Deck] after [Deck] multiplies: [Deck a] and then [Deck b] give
    [a] times [b] copies of the deck. *)
Theorem Deck_twice (a b : Z) (cards : slice) (w : World Rand) :
  valid (heap w) cards →
  ∃ ret w', (c ← Deck growslice a cards; Deck growslice b c) w = Some (ret, w') ∧
    contents (heap w') ret =
      concat (replicate (Z.to_nat a * Z.to_nat b) (contents (heap w) cards)).
Proof.
  intros Hv.
  destruct (yields_seq (Deck growslice a cards) (Deck growslice b) w
              (appended w nil_slice
                 (concat (replicate (Z.to_nat a) (contents (heap w) cards))))
              (λ ret w', contents (heap w') ret =
                 concat (replicate (Z.to_nat a * Z.to_nat b) (contents (heap w) cards))))
    as (ret & w' & H & Hc).
  - by apply Deck_appended.
  - intros c w1 H1.
    eapply yields_mono; [apply Deck_appended, H1|].
    intros ret w' H2. simpl.
    rewrite (appended_contents _ _ _ _ _ H2), (appended_contents _ _ _ _ _ H1).
    rewrite !(contents_empty _ nil_slice) by done. simpl.
    apply concat_replicate_mul.
  - by exists ret, w'.
Qed.

(** *** [Jokers] and the array of the deck *)

Lemma set_heap_id w : set_heap (heap w) w = w.
Proof. by destruct w. Qed.

Lemma append_run_in_place (js : list Z) : ∀ (m : nat) (c : slice) w,
  len c = m → (m + length js ≤ cap c)%nat →
  foldM (λ c i, append growslice c [joker i]) c js w =
    Some (mkSlice (arr c) (off c) (m + length js) (cap c),
          set_heap (alter (list_inserts (off c + m) (joker <$> js)) (arr c) (heap w)) w).
Proof.
  induction js as [|i js IH]; intros m c w Hm Hcap; simpl.
  - rewrite Nat.add_0_r, alter_id, set_heap_id by done.
    destruct c. simpl in *. by subst.
  - simpl in Hcap. unfold mbind, M_bind.
    rewrite append_in_place by (simpl; lia). simpl.
    rewrite (IH (S m)) by (simpl; lia). simpl.
    f_equal. f_equal; [f_equal; lia|].
    unfold set_heap. simpl. f_equal.
    rewrite Hm, alter_alter_eq. apply alter_ext. intros a _. simpl.
    rewrite Nat.add_succ_r. apply list_inserts_cons_l.
Qed.

(** X14. [Jokers] on a slice with room for the jokers allocates nothing: it
    writes them into the array of that slice, right behind the deck, and
    returns a slice over the same array; whoever else looks at that array
    sees the jokers. *)
Theorem Jokers_in_place (n : Z) (cards : slice) (w : World Rand) :
  (len cards + Z.to_nat n ≤ cap cards)%nat →
  Jokers growslice n cards w =
    Some (mkSlice (arr cards) (off cards) (len cards + Z.to_nat n) (cap cards),
          set_heap (alter (list_inserts (off cards + len cards) (joker <$> seqZ 0 n))
                          (arr cards) (heap w)) w).
Proof.
  intros Hcap. unfold Jokers.
  rewrite (append_run_in_place (seqZ 0 n) (len cards)) by (rewrite ?length_seqZ; done).
  by rewrite length_seqZ.
Qed.

(** *** [New] with [Shuffle] and [DefaultSort] *)

Lemma New_two (o1 o2 : slice → M Rand slice) w :
  New growslice [o1; o2] w = (c ← New growslice []; c1 ← o1 c; o2 c1) w.
Proof.
  unfold New, mbind, M_bind.
  destruct (foldM _ nil_slice suits w) as [[c w1]|]; [|done]. simpl.
  unfold mbind, M_bind. destruct (o1 c w1) as [[c1 w2]|]; [|done].
  by destruct (o2 c1 w2) as [[c2 w3]|].
Qed.

(** X15. Sorting undoes shuffling: [New(Shuffle, DefaultSort)] returns the
    standard deck in its order. *)
Theorem New_shuffle_sort (w : World Rand) :
  ∃ cards w', New growslice [Shuffle Perm; DefaultSort sortSteps] w = Some (cards, w') ∧
    contents (heap w') cards = standardDeck.
Proof using Perm_permutation sortSteps_sorts.
  rewrite New_two.
  apply (yields_seq _ _ w (appended w nil_slice standardDeck)); [apply New_appended|].
  intros c w1 H1.
  assert (Hc1 : contents (heap w1) c = standardDeck).
  { by rewrite (appended_contents _ _ _ _ _ H1), contents_empty. }
  apply (yields_seq _ _ w1 (shuffled Perm w1 c));
    [apply Shuffle_shuffled, H1|].
  intros c2 w2 H2.
  pose proof (shuffled_Permutation _ _ _ _ (appended_valid _ _ _ _ _ H1) H2) as Hp.
  destruct (DefaultSort_in_place c2 w2 (shuffled_valid _ _ _ _ _ H2))
    as (l' & Hp' & Hs & ret & w3 & HD & -> & Hin).
  exists c2, w3. split; [done|].
  rewrite (in_place_contents _ _ _ _ Hin).
  apply sorted_standardDeck; [|done]. by rewrite Hp', Hp, Hc1.
Qed.

(** *** Rendering *)

(** X16. The cards of the standard deck are told apart by how they are
    rendered. *)
Theorem Card_String_standard_inj (a b : Card) :
  a ∈ standardDeck → b ∈ standardDeck → Card_String a = Card_String b → a = b.
Proof.
  intros [i Ha]%list_elem_of_lookup [k Hb]%list_elem_of_lookup Heq.
  assert (NoDup (Card_String <$> standardDeck)) as Hnd
    by (apply (bool_decide_unpack _); by vm_compute).
  assert (i = k) as ->; [|congruence].
  apply (NoDup_lookup _ _ _ (Card_String a) Hnd).
  - by rewrite list_lookup_fmap, Ha.
  - by rewrite list_lookup_fmap, Hb, Heq.
Qed.

(** *** Counts that are not positive *)

(** X17. Asked for no jokers or fewer, [Jokers] returns the slice it was
    given and touches nothing; asked for no copies or fewer, [Deck] returns
    the nil slice and touches nothing. *)
Theorem nonpositive_counts (n : Z) (cards : slice) (w : World Rand) :
  n ≤ 0 →
  Jokers growslice n cards w = Some (cards, w) ∧
  Deck growslice n cards w = Some (nil_slice, w).
Proof.
  intros Hn. unfold Jokers, Deck. by rewrite !seqZ_nil.
Qed.

End Proofs.

(** ** The claims on concrete inputs *)

Lemma descPerm_permutation r n : (descPerm r n).1 ≡ₚ seq 0 n.
Proof. apply reverse_Permutation. Qed.

Lemma valid_wholeOf a : valid (heap (worldOf a)) (wholeOf a).
Proof.
  split; simpl; [done|].
  unfold backing. simpl. by rewrite lookup_singleton_eq.
Qed.

Lemma contents_wholeOf a : contents (heap (worldOf a)) (wholeOf a) = a.
Proof.
  unfold contents, backing. simpl. rewrite lookup_singleton_eq. simpl.
  by rewrite drop_0, take_ge.
Qed.

(** The functions run: the deck [New] builds, rendered. *)
Example New_rendered :
  ∃ cards w', New doubling [] emptyWorld = Some (cards, w') ∧
    Card_String <$> contents (heap w') cards =
      ["Ace of Spades"; "Two of Spades"; "Three of Spades"; "Four of Spades";
       "Five of Spades"; "Six of Spades"; "Seven of Spades"; "Eight of Spades";
       "Nine of Spades"; "Ten of Spades"; "Jack of Spades"; "Queen of Spades";
       "King of Spades";
       "Ace of Diamonds"; "Two of Diamonds"; "Three of Diamonds"; "Four of Diamonds";
       "Five of Diamonds"; "Six of Diamonds"; "Seven of Diamonds"; "Eight of Diamonds";
       "Nine of Diamonds"; "Ten of Diamonds"; "Jack of Diamonds"; "Queen of Diamonds";
       "King of Diamonds";
       "Ace of Clubs"; "Two of Clubs"; "Three of Clubs"; "Four of Clubs";
       "Five of Clubs"; "Six of Clubs"; "Seven of Clubs"; "Eight of Clubs";
       "Nine of Clubs"; "Ten of Clubs"; "Jack of Clubs"; "Queen of Clubs";
       "King of Clubs";
       "Ace of Hearts"; "Two of Hearts"; "Three of Hearts"; "Four of Hearts";
       "Five of Hearts"; "Six of Hearts"; "Seven of Hearts"; "Eight of Hearts";
       "Nine of Hearts"; "Ten of Hearts"; "Jack of Hearts"; "Queen of Hearts";
       "King of Hearts"].
Proof. eexists _, _. split; [by vm_compute|]. by vm_compute. Qed.

(** A pipeline as a caller would write it:
    [New(Jokers(2), Filter(isJoker), Deck(2), DefaultSort)] is the standard
    deck twice over, each card next to its double. *)
Example New_pipeline :
  ∃ cards w',
    New doubling [Jokers doubling 2; Filter doubling isJoker; Deck doubling 2;
                  DefaultSort insertionSort] emptyWorld = Some (cards, w') ∧
    len cards = 104%nat ∧
    take 4 (Card_String <$> contents (heap w') cards) =
      ["Ace of Spades"; "Ace of Spades"; "Two of Spades"; "Two of Spades"].
Proof. eexists _, _. split; [by vm_compute|]. split; by vm_compute. Qed.

(** [Jokers] on a slice that has room writes the jokers into the array of
    that slice and returns a slice over the same array: the deck that was
    passed in reads as before, the array behind it does not. *)
Example Jokers_shares_array :
  ∃ w', Jokers doubling 1 roomySlice roomyWorld = Some (mkSlice 0 0 2 3, w') ∧
        heap w' !! 0%nat = Some [mkCard Spade Ace; mkCard Joker 0; zeroCard] ∧
        contents (heap w') roomySlice = [mkCard Spade Ace].
Proof. eexists. split; [by vm_compute|]. split; by vm_compute. Qed.

(** The hypotheses of C2 hold of the standard deck in descending order,
    sorted by insertion sort. *)
Lemma DefaultSort_standard_witness :
  ∃ w', DefaultSort insertionSort (wholeOf (reverse standardDeck))
          (worldOf (reverse standardDeck))
        = Some (wholeOf (reverse standardDeck), w') ∧
        contents (heap w') (wholeOf (reverse standardDeck)) = standardDeck ∧
        ∃ w'', DefaultSort insertionSort (wholeOf (reverse standardDeck)) w'
               = Some (wholeOf (reverse standardDeck), w'') ∧
               contents (heap w'') (wholeOf (reverse standardDeck)) =
                 contents (heap w') (wholeOf (reverse standardDeck)).
Proof.
  apply (DefaultSort_standard insertionSort insertionSort_sorts).
  - apply valid_wholeOf.
  - rewrite contents_wholeOf. apply reverse_Permutation.
Defined.

(** C3 as it is stated fails, in both of its halves.  [DefaultSort] given
    the Two of Spades before the Ace of Spades returns, and the slice it was
    given then holds the Ace before the Two.  [Jokers(1)] given a slice of
    one card over an array of three returns no new sequence: its result is a
    slice over that same array, in which the joker now stands. *)
Lemma DefaultSort_overwrites_Jokers_shares :
  (contents (heap (worldOf twoCards)) (wholeOf twoCards)
     = [mkCard Spade Two; mkCard Spade Ace] ∧
   ∃ w', DefaultSort insertionSort (wholeOf twoCards) (worldOf twoCards)
           = Some (wholeOf twoCards, w') ∧
         contents (heap w') (wholeOf twoCards)
           = [mkCard Spade Ace; mkCard Spade Two] ∧
         contents (heap w') (wholeOf twoCards)
           ≠ contents (heap (worldOf twoCards)) (wholeOf twoCards)) ∧
  (heap roomyWorld !! arr roomySlice = Some [mkCard Spade Ace; zeroCard; zeroCard] ∧
   ∃ ret w', Jokers doubling 1 roomySlice roomyWorld = Some (ret, w') ∧
         arr ret = arr roomySlice ∧ off ret = off roomySlice ∧
         heap w' !! arr roomySlice = Some [mkCard Spade Ace; mkCard Joker 0; zeroCard]).
Proof.
  split.
  - split; [by rewrite contents_wholeOf|].
    eexists. split; [by vm_compute|]. split; [by vm_compute|].
    rewrite contents_wholeOf. by vm_compute.
  - split; [by vm_compute|].
    eexists _, _. split; [by vm_compute|]. split; [done|]. split; [done|].
    by vm_compute.
Qed.

(** The hypotheses of the amended C3 hold of a deck of five cards. *)
Lemma transforms_keep_input_witness :
  ∃ ret w', Shuffle descPerm (wholeOf fiveCards) (worldOf fiveCards) = Some (ret, w') ∧
            heap (worldOf fiveCards) ⊆ heap w' ∧
            (arr ret ∉ dom (heap (worldOf fiveCards))) ∧
            contents (heap w') (wholeOf fiveCards) =
              contents (heap (worldOf fiveCards)) (wholeOf fiveCards).
Proof.
  exact (proj1 (transforms_keep_input descPerm insertionSort doubling
                  descPerm_permutation insertionSort_sorts
                  (wholeOf fiveCards) (worldOf fiveCards) (valid_wholeOf fiveCards))).
Defined.

(** The hypotheses of C4 hold of a deck of five cards and a generator that
    hands out the positions in descending order. *)
Lemma Shuffle_permutation_witness :
  ∃ ret w', Shuffle descPerm (wholeOf fiveCards) (worldOf fiveCards) = Some (ret, w') ∧
    len ret = len (wholeOf fiveCards) ∧
    length (contents (heap w') ret) =
      length (contents (heap (worldOf fiveCards)) (wholeOf fiveCards)) ∧
    contents (heap w') ret ≡ₚ
      contents (heap (worldOf fiveCards)) (wholeOf fiveCards) ∧
    contents (heap w') (wholeOf fiveCards) =
      contents (heap (worldOf fiveCards)) (wholeOf fiveCards).
Proof.
  apply (Shuffle_permutation descPerm descPerm_permutation).
  apply valid_wholeOf.
Defined.

(** C5 as it is stated fails: the last of 257 jokers has rank 0, not 256. *)
Lemma Jokers_rank_wraps :
  ∃ ret w', Jokers doubling 257 nil_slice emptyWorld = Some (ret, w') ∧
    contents (heap w') ret !! 256%nat = Some (mkCard Joker 0) ∧
    contents (heap w') ret ≠
      contents (heap emptyWorld) nil_slice ++ (mkCard Joker <$> seqZ 0 257).
Proof.
  eexists _, _. split; [by vm_compute|]. split; [by vm_compute|].
  intros H. apply (f_equal (λ l, l !! 256%nat)) in H.
  vm_compute in H. discriminate.
Qed.

(** The hypothesis of the amended C5 holds of three jokers added to a deck
    of five cards. *)
Lemma Jokers_appends_witness :
  ∃ ret w', Jokers doubling 3 (wholeOf fiveCards) (worldOf fiveCards) = Some (ret, w') ∧
    contents (heap w') ret =
      contents (heap (worldOf fiveCards)) (wholeOf fiveCards) ++
      ((λ i, mkCard Joker (i `mod` 256)) <$> seqZ 0 3) ∧
    (3 ≤ 256 →
     contents (heap w') ret =
       contents (heap (worldOf fiveCards)) (wholeOf fiveCards) ++
       (mkCard Joker <$> seqZ 0 3)) ∧
    take (len (wholeOf fiveCards)) (contents (heap w') ret) =
      contents (heap (worldOf fiveCards)) (wholeOf fiveCards) ∧
    length (contents (heap w') ret) = (len (wholeOf fiveCards) + Z.to_nat 3)%nat.
Proof.
  apply (Jokers_appends doubling 3). apply valid_wholeOf.
Defined.

(** The hypothesis of C6 holds of a deck of five cards, two of them jokers. *)
Lemma Filter_removes_witness :
  ∃ ret w', Filter doubling isJoker (wholeOf fiveCards) (worldOf fiveCards)
              = Some (ret, w') ∧
    contents (heap w') ret =
      filter (λ c, isJoker c = false)
             (contents (heap (worldOf fiveCards)) (wholeOf fiveCards)) ∧
    ((∀ c, c ∈ contents (heap (worldOf fiveCards)) (wholeOf fiveCards) →
           isJoker c = true) →
     contents (heap w') ret = [] ∧ len ret = 0%nat).
Proof.
  apply (Filter_removes doubling isJoker). apply valid_wholeOf.
Defined.

(** The hypothesis of C7 holds of a deck of five cards taken three times. *)
Lemma Deck_repeats_witness :
  ∃ ret w', Deck doubling 3 (wholeOf fiveCards) (worldOf fiveCards) = Some (ret, w') ∧
    contents (heap w') ret =
      concat (replicate (Z.to_nat 3)
                (contents (heap (worldOf fiveCards)) (wholeOf fiveCards))) ∧
    length (contents (heap w') ret) = (Z.to_nat 3 * len (wholeOf fiveCards))%nat ∧
    (3 = 0 → contents (heap w') ret = []) ∧
    (3 = 1 → contents (heap w') ret =
             contents (heap (worldOf fiveCards)) (wholeOf fiveCards)).
Proof.
  apply (Deck_repeats doubling 3). apply valid_wholeOf.
Defined.

(** The hypothesis of C8 holds of a comparison that spells out the absolute
    rank. *)
Lemma Sort_Less_DefaultSort_witness :
  Sort insertionSort lessByAbsRank (wholeOf fiveCards) (worldOf fiveCards) =
  DefaultSort insertionSort (wholeOf fiveCards) (worldOf fiveCards).
Proof.
  apply (Sort_Less_DefaultSort insertionSort lessByAbsRank).
  reflexivity.
Defined.

(** C9 on the King of Hearts and on a joker. *)
Lemma Card_String_render_witness :
  Card_String (mkCard Heart King) = "King of Hearts" ∧
  Card_String (mkCard Joker 1) = "Joker".
Proof.
  split.
  - apply (proj2 (Card_String_render (mkCard Heart King))). simpl. discriminate.
  - apply (proj1 (Card_String_render (mkCard Joker 1))). reflexivity.
Defined.

(** The hypothesis of C10 holds of insertion sort. *)
Lemma Joker_ties_King_of_Hearts_witness :
  absRank (mkCard Joker 0) = 52 ∧ absRank (mkCard Heart King) = 52 ∧
  (∀ cards (w : World unit) i j,
     contents (heap w) cards !! i = Some (mkCard Joker 0) →
     contents (heap w) cards !! j = Some (mkCard Heart King) →
     Less cards i j w = Some (false, w) ∧ Less cards j i w = Some (false, w)) ∧
  ∃ l1 l2,
    l1 ≡ₚ [mkCard Heart King; mkCard Joker 0] ∧
    l2 ≡ₚ [mkCard Heart King; mkCard Joker 0] ∧
    (∀ cards (w : World unit), valid (heap w) cards → contents (heap w) cards = l1 →
       ∃ w', DefaultSort insertionSort cards w = Some (cards, w') ∧
             contents (heap w') cards = [mkCard Joker 0; mkCard Heart King]) ∧
    (∀ cards (w : World unit), valid (heap w) cards → contents (heap w) cards = l2 →
       ∃ w', DefaultSort insertionSort cards w = Some (cards, w') ∧
             contents (heap w') cards = [mkCard Heart King; mkCard Joker 0]).
Proof.
  apply (Joker_ties_King_of_Hearts insertionSort insertionSort_sorts).
Defined.

(** ** The further properties on concrete inputs *)


Lemma valid_middleOf : valid (heap (worldOf fiveCards)) middleOf.
Proof. split; simpl; [lia|]. unfold backing. simpl. by rewrite lookup_singleton_eq. Qed.

(** The hypotheses of X2 hold of the King of Hearts. *)
Lemma absRank_unique_witness :
  (Ace ≤ Rank (mkCard Heart King) ≤ King) ∧ mkCard Heart King = mkCard Heart King.
Proof.
  assert (Ace ≤ Rank (mkCard Heart King) ≤ King) as H by (by vm_compute).
  split; [done|]. by apply (absRank_unique (mkCard Heart King) (mkCard Heart King)).
Defined.

(** The hypothesis of X3 holds of a deck of five cards. *)
Lemma Less_bounds_witness :
  ((0 < len (wholeOf fiveCards))%nat → (2 < len (wholeOf fiveCards))%nat →
   ∃ a b, contents (heap (worldOf fiveCards)) (wholeOf fiveCards) !! 0%nat = Some a ∧
          contents (heap (worldOf fiveCards)) (wholeOf fiveCards) !! 2%nat = Some b ∧
          Less (wholeOf fiveCards) 0 2 (worldOf fiveCards) =
            Some (bool_decide (absRank a < absRank b), worldOf fiveCards)) ∧
  ((len (wholeOf fiveCards) ≤ 0)%nat ∨ (len (wholeOf fiveCards) ≤ 2)%nat →
   Less (wholeOf fiveCards) 0 2 (worldOf fiveCards) = None).
Proof.
  exact (Less_bounds (wholeOf fiveCards) 0 2 (worldOf fiveCards) (valid_wholeOf fiveCards)).
Defined.


(** The hypotheses of X5 hold of the three cards in the middle of an array
    of five. *)
Lemma DefaultSort_only_window_witness :
  ∃ w', DefaultSort insertionSort middleOf (worldOf fiveCards) = Some (middleOf, w') ∧
    length (backing (heap w') middleOf) =
      length (backing (heap (worldOf fiveCards)) middleOf) ∧
    (∀ k, (k < off middleOf ∨ off middleOf + len middleOf ≤ k)%nat →
          backing (heap w') middleOf !! k =
            backing (heap (worldOf fiveCards)) middleOf !! k) ∧
    (∀ l, l ≠ arr middleOf → heap w' !! l = heap (worldOf fiveCards) !! l) ∧
    shuffleRand w' = shuffleRand (worldOf fiveCards).
Proof.
  exact (DefaultSort_only_window insertionSort insertionSort_sorts
           middleOf (worldOf fiveCards) valid_middleOf).
Defined.

(** The hypotheses of X6 hold of four cards in ascending order. *)
Lemma DefaultSort_sorted_fixed_witness :
  ∃ w', DefaultSort insertionSort (wholeOf sortedCards) (worldOf sortedCards)
          = Some (wholeOf sortedCards, w') ∧
        contents (heap w') (wholeOf sortedCards) =
          contents (heap (worldOf sortedCards)) (wholeOf sortedCards).
Proof.
  apply (DefaultSort_sorted_fixed insertionSort insertionSort_sorts).
  - apply valid_wholeOf.
  - rewrite contents_wholeOf.
    repeat (constructor; [| repeat (constructor; [by vm_compute|]); constructor]).
    constructor.
Defined.

(** The hypotheses of X7 hold of a deck of five cards with two jokers. *)
Lemma DefaultSort_jokers_last_witness :
  ∃ w', DefaultSort insertionSort (wholeOf fiveCards) (worldOf fiveCards)
          = Some (wholeOf fiveCards, w') ∧
    ∀ i k j c,
      contents (heap w') (wholeOf fiveCards) !! i = Some j →
      contents (heap w') (wholeOf fiveCards) !! k = Some c →
      Suit j = Joker → 1 ≤ Rank j → c ∈ standardDeck → (k < i)%nat.
Proof.
  exact (DefaultSort_jokers_last insertionSort insertionSort_sorts
           (wholeOf fiveCards) (worldOf fiveCards) (valid_wholeOf fiveCards)).
Defined.

(** The hypotheses of X8 hold of insertion sort run with the comparison
    that calls every card less than every card. *)
Lemma Sort_keeps_cards_witness :
  ∃ ret w',
    Sort insertionSort (lessBy contrary) (wholeOf fiveCards) (worldOf fiveCards)
      = Some (ret, w') ∧
    ret = wholeOf fiveCards ∧
    contents (heap w') (wholeOf fiveCards) ≡ₚ
      contents (heap (worldOf fiveCards)) (wholeOf fiveCards) ∧
    (∀ l, l ≠ arr (wholeOf fiveCards) → heap w' !! l = heap (worldOf fiveCards) !! l).
Proof.
  eexists _, _. split; [by vm_compute|].
  apply (Sort_keeps_cards insertionSort contrary);
    [apply valid_wholeOf|by vm_compute].
Defined.

(** The hypotheses of X9 hold of a deck of five cards and a generator that
    hands out the positions in descending order. *)
Lemma Shuffle_draws_witness :
  ∃ ret w', Shuffle descPerm (wholeOf fiveCards) (worldOf fiveCards) = Some (ret, w') ∧
    (arr ret ∉ dom (heap (worldOf fiveCards))) ∧ off ret = 0%nat ∧
    cap ret = len (wholeOf fiveCards) ∧
    (∀ i j, (descPerm (shuffleRand (worldOf fiveCards)) (len (wholeOf fiveCards))).1 !! i
              = Some j →
            contents (heap w') ret !! i =
              contents (heap (worldOf fiveCards)) (wholeOf fiveCards) !! j) ∧
    shuffleRand w' =
      (descPerm (shuffleRand (worldOf fiveCards)) (len (wholeOf fiveCards))).2.
Proof.
  exact (Shuffle_draws descPerm descPerm_permutation
           (wholeOf fiveCards) (worldOf fiveCards) (valid_wholeOf fiveCards)).
Defined.

(** The hypothesis of X10 holds of two and then three jokers added to a
    deck of five cards. *)
Lemma Jokers_twice_witness :
  ∃ ret w', (c ← Jokers doubling 2 (wholeOf fiveCards); Jokers doubling 3 c)
              (worldOf fiveCards) = Some (ret, w') ∧
    contents (heap w') ret =
      contents (heap (worldOf fiveCards)) (wholeOf fiveCards) ++
      (joker <$> seqZ 0 2) ++ (joker <$> seqZ 0 3).
Proof.
  exact (Jokers_twice doubling 2 3 (wholeOf fiveCards) (worldOf fiveCards)
           (valid_wholeOf fiveCards)).
Defined.

(** The hypotheses of X11 hold of a deck of two spades. *)
Lemma Filter_undoes_Jokers_witness :
  ∃ ret w', (c ← Jokers doubling 3 (wholeOf twoCards); Filter doubling isJoker c)
              (worldOf twoCards) = Some (ret, w') ∧
    contents (heap w') ret = contents (heap (worldOf twoCards)) (wholeOf twoCards).
Proof.
  apply (Filter_undoes_Jokers doubling 3).
  - apply valid_wholeOf.
  - rewrite contents_wholeOf.
    intros c [->|[->|[]%elem_of_nil]%elem_of_cons]%elem_of_cons; by vm_compute.
Defined.

(** The hypothesis of X12 holds of a deck of five cards, filtered for jokers
    and for aces. *)
Lemma Filter_twice_witness :
  ∃ ret w', (c ← Filter doubling isJoker (wholeOf fiveCards); Filter doubling isAce c)
              (worldOf fiveCards) = Some (ret, w') ∧
    contents (heap w') ret =
      filter (λ c, isJoker c = false ∧ isAce c = false)
             (contents (heap (worldOf fiveCards)) (wholeOf fiveCards)).
Proof.
  exact (Filter_twice doubling isJoker isAce (wholeOf fiveCards) (worldOf fiveCards)
           (valid_wholeOf fiveCards)).
Defined.

(** The hypothesis of X13 holds of a deck of two cards, doubled and then
    tripled. *)
Lemma Deck_twice_witness :
  ∃ ret w', (c ← Deck doubling 2 (wholeOf twoCards); Deck doubling 3 c)
              (worldOf twoCards) = Some (ret, w') ∧
    contents (heap w') ret =
      concat (replicate (Z.to_nat 2 * Z.to_nat 3)
                (contents (heap (worldOf twoCards)) (wholeOf twoCards))).
Proof.
  exact (Deck_twice doubling 2 3 (wholeOf twoCards) (worldOf twoCards)
           (valid_wholeOf twoCards)).
Defined.

(** The hypothesis of X14 holds of a slice of one card over an array of
    three, to which two jokers are added. *)
Lemma Jokers_in_place_witness :
  Jokers doubling 2 roomySlice roomyWorld =
    Some (mkSlice (arr roomySlice) (off roomySlice)
            (len roomySlice + Z.to_nat 2) (cap roomySlice),
          set_heap (alter (list_inserts (off roomySlice + len roomySlice)
                                        (joker <$> seqZ 0 2))
                          (arr roomySlice) (heap roomyWorld)) roomyWorld).
Proof. apply (Jokers_in_place doubling 2 roomySlice roomyWorld). simpl. lia. Defined.

(** The hypotheses of X15 hold of insertion sort and the generator that
    hands out the positions in descending order. *)
Lemma New_shuffle_sort_witness :
  ∃ cards w',
    New doubling [Shuffle descPerm; DefaultSort insertionSort] emptyWorld
      = Some (cards, w') ∧
    contents (heap w') cards = standardDeck.
Proof.
  exact (New_shuffle_sort descPerm insertionSort doubling
           descPerm_permutation insertionSort_sorts emptyWorld).
Defined.

(** The hypotheses of X16 hold of the Queen of Hearts. *)
Lemma Card_String_standard_inj_witness :
  mkCard Heart Queen ∈ standardDeck ∧ mkCard Heart Queen = mkCard Heart Queen.
Proof.
  assert (mkCard Heart Queen ∈ standardDeck) as H
    by (apply (bool_decide_unpack _); by vm_compute).
  split; [done|].
  by apply (Card_String_standard_inj (mkCard Heart Queen) (mkCard Heart Queen)).
Defined.

(** The hypothesis of X17 holds of a count of -1. *)
Lemma nonpositive_counts_witness :
  Jokers doubling (-1) (wholeOf fiveCards) (worldOf fiveCards)
    = Some (wholeOf fiveCards, worldOf fiveCards) ∧
  Deck doubling (-1) (wholeOf fiveCards) (worldOf fiveCards)
    = Some (nil_slice, worldOf fiveCards).
Proof.
  apply (nonpositive_counts doubling (-1) (wholeOf fiveCards) (worldOf fiveCards)). lia.
Defined.

End deck.
